(** * Voice-activity streaming service: sessions, registry and frame chunker

    A shallow embedding of [server.py] (classes [VADProcessor] and
    [VADServicer]) and of the frame generator of [client.py]
    ([FileVADClient.read_wav_file]), with the properties of the session
    state machine, the streaming handler and the chunker.

    Conventions of the embedding:
    - [bytes] objects are lists of [byte];
    - the statuses returned by [process_chunk] are the Python strings
      ["start"], ["end"] and ["continue"], kept as strings;
    - a speech probability is a rational number, the threshold literal
      [0.7] is the rational 7/10 (rounding of floats is not modelled);
    - the Silero model is a global object with internal state that may
      raise: it is a parameter [model] threading a state of type
      [ModelState] and returning an exception or a probability;
    - a Python exception is the value [inl e] of a sum type, [e] being its
      message; what [print] writes is not modelled. *)

From Stdlib Require Import ZArith QArith List String Lia DecimalString.
From Stdlib.Strings Require Import Byte.
From stdpp Require Import gmap strings list fin_maps.
Import ListNotations.

Local Open Scope string_scope.
Local Open Scope list_scope.

(** ** Data *)

Definition bytes : Type := list byte.
Definition Exception : Type := string.

(** [SAMPLE_RATE] and [VAD_CHUNK_SIZE] of both files. *)
Definition SAMPLE_RATE : Z := 16000.
Definition VAD_CHUNK_SIZE : nat := 512.

(** [len(b''.join(chunks))] is the sum of the lengths; [join] is the join
    itself. *)
Definition join (chunks : list bytes) : bytes := List.concat chunks.

Definition total_len (chunks : list bytes) : nat :=
  fold_right (fun c n => (length c + n)%nat) 0%nat chunks.

(** The state of one [VADProcessor] object: [__init__] gives
    [VADProcessor_new]. *)
Record VADProcessor : Type := mkVADProcessor {
  speech_detected : bool;
  accumulated_audio : list bytes
}.

Definition VADProcessor_new : VADProcessor :=
  {| speech_detected := false; accumulated_audio := [] |}.

(** ** Decoding and resizing a chunk (server.py 69-78) *)

(** One little-endian two's-complement 16-bit sample. *)
Definition int16_le (lo hi : byte) : Z :=
  let u := (Z.of_N (Byte.to_N lo) + 256 * Z.of_N (Byte.to_N hi))%Z in
  if (u <? 32768)%Z then u else (u - 65536)%Z.

(** [np.frombuffer(audio_chunk, np.int16)]: raises [ValueError] when the
    buffer is not a whole number of 2-byte elements. *)
Fixpoint frombuffer_int16 (b : bytes) : Exception + list Z :=
  match b with
  | [] => inr []
  | [_] => inl "buffer size must be a multiple of element size"
  | lo :: hi :: rest =>
      match frombuffer_int16 rest with
      | inl e => inl e
      | inr l => inr (int16_le lo hi :: l)
      end
  end.

(** Lines 71-78: a chunk that is not [VAD_CHUNK_SIZE] samples long is cut
    to its first [VAD_CHUNK_SIZE] samples or extended with zero samples. *)
Definition resize_chunk (audio_int16 : list Z) : list Z :=
  if negb (length audio_int16 =? VAD_CHUNK_SIZE)%nat then
    if (VAD_CHUNK_SIZE <? length audio_int16)%nat then
      firstn VAD_CHUNK_SIZE audio_int16
    else
      audio_int16 ++ repeat 0%Z (VAD_CHUNK_SIZE - length audio_int16)
  else audio_int16.

(** Line 81: [audio_int16.astype(np.float32) / 32768.0], exact on 16-bit
    values. *)
Definition normalize (audio_int16 : list Z) : list Q :=
  map (fun s => (s # 32768)%Q) audio_int16.

(** Line 100: [speech_prob > 0.7]. *)
Definition THRESHOLD : Q := (7 # 10)%Q.

Definition above_threshold (speech_prob : Q) : bool :=
  negb (Qle_bool speech_prob THRESHOLD).

(** The response messages of the service. *)
Record VADResponse : Type := mkVADResponse {
  event : string;
  message : string
}.

Record ResetResponse : Type := mkResetResponse { success : bool }.

Record AudioChunk : Type := mkAudioChunk { audio_data : bytes }.

(** Python's [str(n)] for a length. *)
Definition str_of_nat (n : nat) : string :=
  NilEmpty.string_of_uint (Nat.to_uint n).

(** How the inbound request iterator stops: exhausted, or raising. *)
Inductive stream_end : Type :=
| EndOfStream
| StreamRaises (e : Exception).

(** How the RPC finishes: normally, or through
    [context.abort(grpc.StatusCode.INTERNAL, details)]. *)
Inductive rpc_status : Type :=
| RpcOk
| RpcAbortedInternal (details : string).

(** ** The frame generator of the client (client.py 29-66) *)

(** An opened [wave] reader: its header fields and the audio bytes not yet
    read. *)
Record Wave_read : Type := mkWave_read {
  getnchannels : nat;
  getsampwidth : nat;
  getframerate : Z;
  remaining : bytes
}.

(** [wf.readframes(nframes)]: at most [nframes] frames of
    [nchannels * sampwidth] bytes each, fewer when the data runs out. *)
Definition readframes (nframes : nat) (wf : Wave_read) : bytes * Wave_read :=
  let n := (nframes * (getnchannels wf * getsampwidth wf))%nat in
  (firstn n (remaining wf),
   mkWave_read (getnchannels wf) (getsampwidth wf) (getframerate wf)
     (skipn n (remaining wf))).

(** The truth value of a [bytes] object. *)
Definition truthy (data : bytes) : bool :=
  match data with [] => false | _ :: _ => true end.

(** The [while data and self.running] loop (lines 46-61). [running k] is
    the value of [self.running] read by the [k]-th test of the loop
    (another thread may clear it through [stop_streaming]). The result is
    the list of the chunks yielded, [None] when [fuel] iterations were not
    enough. [b'\x00' * padding_needed] is empty for a negative
    [padding_needed], as the truncated subtraction makes it here. *)
Fixpoint read_loop (fuel : nat) (running : nat -> bool) (k : nat)
    (bytes_per_chunk : nat) (wf : Wave_read) (data : bytes)
    : option (list bytes) :=
  match fuel with
  | O => None
  | S fuel' =>
      if truthy data && running k then
        let yielded :=
          if (length data =? bytes_per_chunk)%nat then [data]
          else if (0 <? length data)%nat then
            let padding_needed := (bytes_per_chunk - length data)%nat in
            [data ++ repeat x00 padding_needed]
          else [] in
        let '(data', wf') := readframes VAD_CHUNK_SIZE wf in
        match read_loop fuel' running (S k) bytes_per_chunk wf' data' with
        | Some rest => Some (yielded ++ rest)
        | None => None
        end
      else Some []
  end.

(** [read_wav_file]: [opened] is the result of [wave.open]; an exception
    there is caught and nothing is yielded. The format check of lines 34-36
    only prints. *)
Definition read_wav_file (opened : Exception + Wave_read)
    (running : nat -> bool) : option (list bytes) :=
  match opened with
  | inl _ => Some []
  | inr wf =>
      let bytes_per_chunk := (VAD_CHUNK_SIZE * getsampwidth wf)%nat in
      let '(data, wf') := readframes VAD_CHUNK_SIZE wf in
      read_loop (length (remaining wf) + 2) running 0 bytes_per_chunk wf' data
  end.

(** ** A scripted scorer

    The stub scorer of the scenarios: its state is the list of the scores
    still to give, one per call, whatever the samples are; it raises when
    the list is empty. *)
Definition scripted_model (scores : list Q) (samples : list Q) (rate : Z)
    : list Q * (Exception + Q) :=
  match scores with
  | [] => ([], inl "no score left")
  | p :: scores' => (scores', inr p)
  end.

(** The scores of the ten-frame scenario. *)
Definition scenario_scores : list Q :=
  [1 # 10; 1 # 10; 9 # 10; 9 # 10; 9 # 10; 2 # 10; 2 # 10; 9 # 10; 1 # 10;
   1 # 10]%Q.

(** The two responses of the service. *)
Definition started : VADResponse := mkVADResponse "start" "Speech detected".

Definition flushed (n : nat) : VADResponse :=
  mkVADResponse "end"
    ("Speech ended, " +:+ str_of_nat n +:+ " bytes processed for STT").

(** Sample inputs: a peer identity, a chunk of one sample (10000), a chunk
    of one zero sample, a chunk of one byte, which is not decodable, and a
    full frame of zero samples. *)
Definition peer0 : string := "ipv4:127.0.0.1:50432".
Definition speech_chunk : bytes := [x10; x27].
Definition silence_chunk : bytes := [x00; x00].
Definition odd_chunk : bytes := [x00].
Definition silent_frame : bytes := repeat x00 (VAD_CHUNK_SIZE * 2).

(** ** The server (server.py 58-187) *)

Section Server.

(** The global [model]: called with the normalized samples and the
    sample rate, it updates its own state and returns a probability or
    raises. *)
Variable ModelState : Type.
Variable model : ModelState -> list Q -> Z -> ModelState * (Exception + Q).

(** *** [VADProcessor.process_chunk] *)

(** The body of the [try] block (lines 69-110): its exceptions come from
    the decoding and from the model call; the chunk is recorded after the
    model call only. *)
Definition process_chunk_try (m : ModelState) (self : VADProcessor)
    (audio_chunk : bytes) : ModelState * VADProcessor * (Exception + string) :=
  match frombuffer_int16 audio_chunk with
  | inl e => (m, self, inl e)
  | inr audio_int16 =>
      let audio_int16 := resize_chunk audio_int16 in
      let audio_float32 := normalize audio_int16 in
      match model m audio_float32 SAMPLE_RATE with
      | (m', inl e) => (m', self, inl e)
      | (m', inr speech_prob) =>
          let accumulated := accumulated_audio self ++ [audio_chunk] in
          let speech_detected_now := above_threshold speech_prob in
          if speech_detected_now && negb (speech_detected self) then
            (m', mkVADProcessor true accumulated, inr "start")
          else if negb speech_detected_now && speech_detected self then
            (m', mkVADProcessor false accumulated, inr "end")
          else
            (m', mkVADProcessor (speech_detected self) accumulated,
             inr "continue")
      end
  end.

(** The whole method: [except Exception] turns any exception into the
    status ["continue"] (lines 112-115). *)
Definition process_chunk (m : ModelState) (self : VADProcessor)
    (audio_chunk : bytes) : ModelState * VADProcessor * string :=
  match process_chunk_try m self audio_chunk with
  | (m', self', inl _) => (m', self', "continue")
  | (m', self', inr status) => (m', self', status)
  end.

(** [get_accumulated_audio]: the joined buffer, and the buffer cleared. *)
Definition get_accumulated_audio (self : VADProcessor)
    : VADProcessor * bytes :=
  (mkVADProcessor (speech_detected self) [], join (accumulated_audio self)).

(** [reset]: [vad_iterator] is never assigned, so only the two fields are
    set. *)
Definition reset (self : VADProcessor) : VADProcessor :=
  mkVADProcessor false [].

(** *** [VADServicer] *)

(** The state of the server: the state of the global model and the
    dictionary [client_processors]. A key is bound once, to an object
    that is then updated in place, so the dictionary of the processors'
    states is the store. *)
Record Server : Type := mkServer {
  model_state : ModelState;
  client_processors : gmap string VADProcessor
}.

(** One iteration of the [for request in request_iterator] loop (lines
    147-166): the status of the chunk, and the response yielded if any. *)
Definition ProcessAudio_step (m : ModelState) (processor : VADProcessor)
    (request : AudioChunk)
    : ModelState * VADProcessor * (string * option VADResponse) :=
  let audio_chunk := audio_data request in
  let '(m', processor', status) := process_chunk m processor audio_chunk in
  if String.eqb status "end" then
    let '(processor'', audio) := get_accumulated_audio processor' in
    (m', processor'',
     (status,
      Some (mkVADResponse status
              ("Speech ended, " +:+ str_of_nat (length audio)
               +:+ " bytes processed for STT"))))
  else if String.eqb status "start" then
    (m', processor', (status, Some (mkVADResponse status "Speech detected")))
  else
    (m', processor', (status, None)).

(** The loop over the requests received: one entry per request. *)
Fixpoint ProcessAudio_loop (m : ModelState) (processor : VADProcessor)
    (request_iterator : list AudioChunk)
    : ModelState * VADProcessor * list (string * option VADResponse) :=
  match request_iterator with
  | [] => (m, processor, [])
  | request :: rest =>
      let '(m1, processor1, entry) := ProcessAudio_step m processor request in
      let '(m2, processor2, entries) := ProcessAudio_loop m1 processor1 rest in
      (m2, processor2, entry :: entries)
  end.

(** The responses yielded, in the order of the yields. *)
Definition yielded (entries : list (string * option VADResponse))
    : list VADResponse :=
  omap snd entries.

(** [if client_id in self.client_processors:
       self.client_processors[client_id].reset()] *)
Definition reset_if_present (client_id : string)
    (procs : gmap string VADProcessor) : gmap string VADProcessor :=
  match procs !! client_id with
  | Some processor => <[client_id := reset processor]> procs
  | None => procs
  end.

(** [ProcessAudio] for the peer [peer], on the requests received before
    the iterator stops as [fin] says. The [finally] clause runs in both
    cases. *)
Definition ProcessAudio (srv : Server) (peer : string)
    (request_iterator : list AudioChunk) (fin : stream_end)
    : Server * list VADResponse * rpc_status :=
  let client_id := peer in
  let '(procs, processor) :=
    match client_processors srv !! client_id with
    | None =>
        (<[client_id := VADProcessor_new]> (client_processors srv),
         VADProcessor_new)
    | Some processor => (client_processors srv, processor)
    end in
  let '(m', processor', entries) :=
    ProcessAudio_loop (model_state srv) processor request_iterator in
  let procs := <[client_id := processor']> procs in
  let status :=
    match fin with
    | EndOfStream => RpcOk
    | StreamRaises e => RpcAbortedInternal ("Error: " +:+ e)
    end in
  (mkServer m' (reset_if_present client_id procs), yielded entries, status).

(** [ResetVAD] for the peer [peer]. *)
Definition ResetVAD (srv : Server) (peer : string) : Server * ResetResponse :=
  let client_id := peer in
  (mkServer (model_state srv)
     (reset_if_present client_id (client_processors srv)),
   mkResetResponse true).

End Server.

Arguments process_chunk_try {ModelState} model m self audio_chunk.
Arguments process_chunk {ModelState} model m self audio_chunk.
Arguments Server ModelState : clear implicits.
Arguments mkServer {ModelState} model_state client_processors.
Arguments model_state {ModelState} s.
Arguments client_processors {ModelState} s.
Arguments ProcessAudio_step {ModelState} model m processor request.
Arguments ProcessAudio_loop {ModelState} model m processor request_iterator.
Arguments ProcessAudio {ModelState} model srv peer request_iterator fin.
Arguments ResetVAD {ModelState} srv peer.

(** The chunks of [request_iterator] that are decoded and scored without an
    exception when the requests are processed in order from the model
    state [m] (whether a chunk is scored does not depend on the session). *)
Fixpoint scored_chunks {ModelState : Type}
    (model : ModelState -> list Q -> Z -> ModelState * (Exception + Q))
    (m : ModelState) (request_iterator : list AudioChunk) : list bytes :=
  match request_iterator with
  | [] => []
  | request :: rest =>
      match process_chunk_try model m VADProcessor_new (audio_data request) with
      | (m', _, inl _) => scored_chunks model m' rest
      | (m', _, inr _) => audio_data request :: scored_chunks model m' rest
      end
  end.

(** The status chosen by lines 103-110 from the detection of the chunk and
    the flag of the session. *)
Definition status_of (speech_detected_now speaking : bool) : string :=
  if speech_detected_now && negb speaking then "start"
  else if negb speech_detected_now && speaking then "end"
  else "continue".

(** ** Further definitions *)

(** The statuses other than ["continue"] alternate: the next one is
    ["end"] when the session speaks and ["start"] when it does not. *)
Fixpoint alternating (speaking : bool) (events : list string) : Prop :=
  match events with
  | [] => True
  | e :: rest =>
      e = (if speaking then "end" else "start") /\
      alternating (negb speaking) rest
  end.

(** Whether a response is an ["end"]. *)
Definition is_end (response : VADResponse) : bool :=
  String.eqb (event response) "end".

(** Complete calls of the two methods of [VADServicer], served one after
    the other on the same servicer. *)
Inductive call : Type :=
| CallProcessAudio (peer : string) (request_iterator : list AudioChunk)
    (fin : stream_end)
| CallResetVAD (peer : string).

Definition serve_call {ModelState : Type}
    (model : ModelState -> list Q -> Z -> ModelState * (Exception + Q))
    (srv : Server ModelState) (c : call) : Server ModelState :=
  match c with
  | CallProcessAudio peer request_iterator fin =>
      (ProcessAudio model srv peer request_iterator fin).1.1
  | CallResetVAD peer => (ResetVAD srv peer).1
  end.

Definition serve_calls {ModelState : Type}
    (model : ModelState -> list Q -> Z -> ModelState * (Exception + Q))
    (srv : Server ModelState) (calls : list call) : Server ModelState :=
  fold_left (serve_call model) calls srv.

(** The peers of the [ProcessAudio] calls of a list. *)
Definition streaming_peers (calls : list call) : list string :=
  omap (fun c => match c with
                 | CallProcessAudio peer _ _ => Some peer
                 | CallResetVAD _ => None
                 end) calls.

(** [VADServicer.__init__]: no processor yet. *)
Definition VADServicer_new {ModelState : Type} (m : ModelState)
    : Server ModelState :=
  mkServer m ∅.

(** *** The client's handling of the responses (client.py 68-106) *)

(** The two queues of [FileVADClient], oldest item first. *)
Record Queues : Type := mkQueues {
  vad_events_queue : list (string * string);
  stt_queue : list string
}.

(** The body of the [for response in ...] loop (lines 89-100). *)
Definition route_response (q : Queues) (response : VADResponse) : Queues :=
  let event_ := event response in
  let message_ := message response in
  let q1 := mkQueues (vad_events_queue q ++ [(event_, message_)]) (stt_queue q) in
  if String.eqb event_ "end" then
    mkQueues (vad_events_queue q1) (stt_queue q1 ++ [message_])
  else q1.

Definition route_responses (q : Queues) (responses : list VADResponse)
    : Queues :=
  fold_left route_response responses q.

(** [stream_file], against a servicer that sees the client as [peer]:
    [file_exists] is [os.path.exists(self.wav_file)], [opened] and
    [running] are as in [read_wav_file]. The chunks of the generator are
    the requests of one [ProcessAudio] call, which end with the generator;
    the result is [None] only if the generator ran out of fuel. *)
Definition stream_file {ModelState : Type}
    (model : ModelState -> list Q -> Z -> ModelState * (Exception + Q))
    (srv : Server ModelState) (peer : string) (file_exists : bool)
    (opened : Exception + Wave_read) (running : nat -> bool) (q : Queues)
    : option (Server ModelState * Queues) :=
  if negb file_exists then Some (srv, q)
  else
    match read_wav_file opened running with
    | None => None
    | Some chunks =>
        let requests := map mkAudioChunk chunks in
        let '(srv', responses, _) :=
          ProcessAudio model srv peer requests EndOfStream in
        Some (srv', route_responses q responses)
    end.

(** *** [save_recorded_audio] (server.py 30-54) *)

(** The global list [audio_chunks] and the WAV files written, by path.
    [timestamp] is the result of [time.strftime]; [open_error] is the
    exception of [wave.open(filepath, 'wb')] if it raises, in which case
    the function is left before anything is written or cleared. A file is
    given by its header and its audio bytes, as a reader finds them. *)
Definition save_recorded_audio (audio_chunks : list bytes)
    (files : gmap string Wave_read) (timestamp : string)
    (open_error : option Exception)
    : (Exception + unit) * list bytes * gmap string Wave_read :=
  match audio_chunks with
  | [] => (inr tt, audio_chunks, files)
  | _ :: _ =>
      let filename := "vad_recording_" +:+ timestamp +:+ ".wav" in
      let filepath := "recordings/" +:+ filename in
      let combined_audio := join audio_chunks in
      match open_error with
      | Some e => (inl e, audio_chunks, files)
      | None =>
          (inr tt, [],
           <[filepath := mkWave_read 1 2 SAMPLE_RATE combined_audio]> files)
      end
  end.

(** * Properties *)

(** ** Decoding *)

Lemma frombuffer_int16_even (n : nat) :
  forall b : bytes, length b = (2 * n)%nat ->
    exists samples, frombuffer_int16 b = inr samples /\ length samples = n.
Proof.
  induction n as [|n IH]; intros b Hb.
  - destruct b; [|discriminate]. exists []. split; reflexivity.
  - destruct b as [|lo [|hi rest]]; simpl in Hb; try lia.
    destruct (IH rest) as (l & Hl & Hn); [lia|].
    exists (int16_le lo hi :: l). simpl. rewrite Hl, Hn. split; reflexivity.
Qed.

Lemma frombuffer_int16_odd (n : nat) :
  forall b : bytes, length b = S (2 * n) ->
    exists e, frombuffer_int16 b = inl e.
Proof.
  induction n as [|n IH]; intros b Hb.
  - destruct b as [|x [|y r]]; simpl in Hb; try lia. eexists; reflexivity.
  - destruct b as [|lo [|hi rest]]; simpl in Hb; try lia.
    destruct (IH rest) as (e & He); [lia|].
    exists e. simpl. rewrite He. reflexivity.
Qed.

Lemma resize_chunk_length (samples : list Z) :
  length (resize_chunk samples) = VAD_CHUNK_SIZE.
Proof.
  unfold resize_chunk.
  destruct (Nat.eqb_spec (length samples) VAD_CHUNK_SIZE) as [E|E]; simpl; [exact E|].
  destruct (Nat.ltb_spec VAD_CHUNK_SIZE (length samples)) as [L|L].
  - rewrite length_take. lia.
  - rewrite length_app, repeat_length. lia.
Qed.

Lemma normalize_length (samples : list Z) :
  length (normalize samples) = length samples.
Proof. unfold normalize. apply length_map. Qed.

(** ** The threshold *)

Lemma above_threshold_true (p : Q) :
  above_threshold p = true <-> (THRESHOLD < p)%Q.
Proof.
  unfold above_threshold. rewrite negb_true_iff.
  split.
  - intros H. apply Qnot_le_lt. intros Hle.
    apply Qle_bool_iff in Hle. congruence.
  - intros H. destruct (Qle_bool p THRESHOLD) eqn:E; [|reflexivity].
    apply Qle_bool_iff in E. exfalso. exact (Qlt_not_le _ _ H E).
Qed.

Lemma above_threshold_false (p : Q) :
  above_threshold p = false <-> (p <= THRESHOLD)%Q.
Proof.
  unfold above_threshold. rewrite negb_false_iff. apply Qle_bool_iff.
Qed.

(** ** The session state machine *)

Section ProcessChunk.

Variable ModelState : Type.
Variable model : ModelState -> list Q -> Z -> ModelState * (Exception + Q).

(** A chunk that is decoded and scored: the chunk is recorded and the
    flag follows the score. *)
Lemma process_chunk_scored m self chunk samples m' p :
  frombuffer_int16 chunk = inr samples ->
  model m (normalize (resize_chunk samples)) SAMPLE_RATE = (m', inr p) ->
  process_chunk model m self chunk =
    (m',
     mkVADProcessor (above_threshold p) (accumulated_audio self ++ [chunk]),
     status_of (above_threshold p) (speech_detected self)).
Proof.
  intros Hdec Hmod. unfold process_chunk, process_chunk_try, status_of.
  rewrite Hdec, Hmod.
  destruct (above_threshold p), (speech_detected self); reflexivity.
Qed.

Lemma process_chunk_undecodable m self chunk e :
  frombuffer_int16 chunk = inl e ->
  process_chunk_try model m self chunk = (m, self, inl e).
Proof. intros Hdec. unfold process_chunk_try. rewrite Hdec. reflexivity. Qed.

Lemma process_chunk_model_raises m self chunk samples m' e :
  frombuffer_int16 chunk = inr samples ->
  model m (normalize (resize_chunk samples)) SAMPLE_RATE = (m', inl e) ->
  process_chunk_try model m self chunk = (m', self, inl e).
Proof.
  intros Hdec Hmod. unfold process_chunk_try. rewrite Hdec, Hmod. reflexivity.
Qed.

(** An exception leaves the session as it was. *)
Lemma process_chunk_try_raises m self chunk m' self' e :
  process_chunk_try model m self chunk = (m', self', inl e) -> self' = self.
Proof.
  unfold process_chunk_try.
  destruct (frombuffer_int16 chunk) as [e0|samples]; [congruence|].
  destruct (model m _ SAMPLE_RATE) as [m1 [e1|p]]; [congruence|].
  destruct (above_threshold p && negb (speech_detected self));
    [discriminate|].
  destruct (negb (above_threshold p) && speech_detected self); discriminate.
Qed.

(** A chunk processed without exception is recorded, whatever the
    status. *)
Lemma process_chunk_try_returns m self chunk m' self' status :
  process_chunk_try model m self chunk = (m', self', inr status) ->
  accumulated_audio self' = accumulated_audio self ++ [chunk] /\
  (status = "start" /\ speech_detected self = false /\ speech_detected self' = true \/
   status = "end" /\ speech_detected self = true /\ speech_detected self' = false \/
   status = "continue" /\ speech_detected self' = speech_detected self).
Proof.
  unfold process_chunk_try.
  destruct (frombuffer_int16 chunk) as [e0|samples]; [congruence|].
  destruct (model m _ SAMPLE_RATE) as [m1 [e1|p]]; [congruence|].
  destruct (above_threshold p), (speech_detected self); simpl;
    intros [= <- <- <-]; simpl; intuition.
Qed.

(** The statuses are the three strings only. *)
Lemma process_chunk_status m self chunk :
  let status := snd (process_chunk model m self chunk) in
  status = "start" \/ status = "end" \/ status = "continue".
Proof.
  unfold process_chunk.
  destruct (process_chunk_try model m self chunk) as [[m' self'] [e|status]] eqn:E;
    simpl; [intuition|].
  apply process_chunk_try_returns in E. intuition.
Qed.

(** C1: the transition rule of [process_chunk]. For a chunk that is
    decoded and scored with probability [p], with detected = (p > 0.7):
    silent and detected gives ["start"] and the session speaks; speaking
    and not detected gives ["end"] and the session is silent; the two
    other cases give ["continue"] and leave the flag as it is. From
    silence, two chunks in a row scoring above 0.7 give ["start"] then
    ["continue"]. *)
Theorem process_chunk_transition m self chunk samples m' p :
  frombuffer_int16 chunk = inr samples ->
  model m (normalize (resize_chunk samples)) SAMPLE_RATE = (m', inr p) ->
  let after speaking :=
    mkVADProcessor speaking (accumulated_audio self ++ [chunk]) in
  (speech_detected self = false -> (THRESHOLD < p)%Q ->
     process_chunk model m self chunk = (m', after true, "start")) /\
  (speech_detected self = true -> (p <= THRESHOLD)%Q ->
     process_chunk model m self chunk = (m', after false, "end")) /\
  (speech_detected self = false -> (p <= THRESHOLD)%Q ->
     process_chunk model m self chunk = (m', after false, "continue")) /\
  (speech_detected self = true -> (THRESHOLD < p)%Q ->
     process_chunk model m self chunk = (m', after true, "continue")) /\
  (forall chunk2 samples2 m2 p2,
     frombuffer_int16 chunk2 = inr samples2 ->
     model m' (normalize (resize_chunk samples2)) SAMPLE_RATE = (m2, inr p2) ->
     speech_detected self = false ->
     (THRESHOLD < p)%Q -> (THRESHOLD < p2)%Q ->
     snd (process_chunk model m self chunk) = "start" /\
     snd (process_chunk model m' (after true) chunk2) = "continue" /\
     speech_detected (snd (fst (process_chunk model m' (after true) chunk2)))
       = true).
Proof.
  intros Hdec Hmod after.
  rewrite (process_chunk_scored m self chunk samples m' p Hdec Hmod).
  split; [|split; [|split; [|split]]].
  - intros Hs Hp. apply above_threshold_true in Hp. rewrite Hp, Hs. reflexivity.
  - intros Hs Hp. apply above_threshold_false in Hp. rewrite Hp, Hs. reflexivity.
  - intros Hs Hp. apply above_threshold_false in Hp. rewrite Hp, Hs. reflexivity.
  - intros Hs Hp. apply above_threshold_true in Hp. rewrite Hp, Hs. reflexivity.
  - intros chunk2 samples2 m2 p2 Hdec2 Hmod2 Hs Hp Hp2.
    rewrite (process_chunk_scored m' (after true) chunk2 samples2 m2 p2
               Hdec2 Hmod2).
    apply above_threshold_true in Hp, Hp2. rewrite Hp, Hp2, Hs.
    repeat split.
Qed.

End ProcessChunk.

(** ** One iteration of the handler *)

Lemma length_join (chunks : list bytes) :
  length (join chunks) = total_len chunks.
Proof.
  unfold join. induction chunks as [|c chunks IH]; simpl; [reflexivity|].
  rewrite length_app, IH. reflexivity.
Qed.

Lemma total_len_app (xs ys : list bytes) :
  total_len (xs ++ ys) = (total_len xs + total_len ys)%nat.
Proof.
  induction xs as [|x xs IH]; simpl; [reflexivity|].
  unfold total_len in *. simpl. rewrite IH. lia.
Qed.

Section Handler.

Variable ModelState : Type.
Variable model : ModelState -> list Q -> Z -> ModelState * (Exception + Q).

(** An exception in [process_chunk]: nothing is yielded, the session is
    untouched. *)
Lemma ProcessAudio_step_raises m self request m' self' e :
  process_chunk_try model m self (audio_data request) = (m', self', inl e) ->
  ProcessAudio_step model m self request = (m', self, ("continue", None)).
Proof.
  intros H. pose proof (process_chunk_try_raises _ _ _ _ _ _ _ _ H) as ->.
  unfold ProcessAudio_step, process_chunk. rewrite H. reflexivity.
Qed.

(** A chunk processed without exception. *)
Lemma ProcessAudio_step_returns m self request m' self' status :
  process_chunk_try model m self (audio_data request) = (m', self', inr status) ->
  let recorded := accumulated_audio self ++ [audio_data request] in
  accumulated_audio self' = recorded /\
  (status = "start" /\
     ProcessAudio_step model m self request =
       (m', self', ("start", Some (mkVADResponse "start" "Speech detected")))
   \/ status = "end" /\
     ProcessAudio_step model m self request =
       (m', mkVADProcessor (speech_detected self') [],
        ("end",
         Some (mkVADResponse "end"
                 ("Speech ended, " +:+ str_of_nat (total_len recorded)
                  +:+ " bytes processed for STT"))))
   \/ status = "continue" /\
     ProcessAudio_step model m self request = (m', self', ("continue", None))).
Proof.
  intros H recorded.
  destruct (process_chunk_try_returns _ _ _ _ _ _ _ _ H) as [Hacc Hst].
  split; [exact Hacc|].
  unfold ProcessAudio_step, process_chunk. rewrite H.
  destruct Hst as [(-> & _) | [(-> & _) | (-> & _)]]; simpl.
  - left. split; reflexivity.
  - right; left. split; [reflexivity|].
    rewrite length_join, Hacc. reflexivity.
  - right; right. split; reflexivity.
Qed.

(** C8: the policy for malformed chunks and scoring failures. A chunk
    decoded to a number of samples other than 512 is cut to its first 512
    samples or extended with zero samples to exactly 512, the model is
    called on the result and a score gives a regular transition with the
    chunk recorded; and when processing raises, the status is
    ["continue"], nothing is yielded and the session is unchanged. *)
Theorem malformed_chunk_policy m self chunk :
  (forall samples,
     frombuffer_int16 chunk = inr samples ->
     length samples <> VAD_CHUNK_SIZE ->
     let scored := normalize (resize_chunk samples) in
     length scored = VAD_CHUNK_SIZE /\
     (VAD_CHUNK_SIZE < length samples ->
        resize_chunk samples = firstn VAD_CHUNK_SIZE samples) /\
     (length samples < VAD_CHUNK_SIZE ->
        resize_chunk samples =
          samples ++ repeat 0%Z (VAD_CHUNK_SIZE - length samples)) /\
     (process_chunk model m self chunk).1.1 = (model m scored SAMPLE_RATE).1 /\
     (forall m' p,
        model m scored SAMPLE_RATE = (m', inr p) ->
        process_chunk model m self chunk =
          (m',
           mkVADProcessor (above_threshold p)
             (accumulated_audio self ++ [chunk]),
           status_of (above_threshold p) (speech_detected self)))) /\
  (forall m' self' e,
     process_chunk_try model m self chunk = (m', self', inl e) ->
     process_chunk model m self chunk = (m', self, "continue") /\
     ProcessAudio_step model m self (mkAudioChunk chunk) =
       (m', self, ("continue", None))).
Proof.
  split.
  - intros samples Hdec Hlen scored.
    split; [|split; [|split; [|split]]].
    + unfold scored. rewrite normalize_length. apply resize_chunk_length.
    + intros Hlt. unfold resize_chunk.
      destruct (Nat.eqb_spec (length samples) VAD_CHUNK_SIZE); [lia|]. simpl.
      destruct (Nat.ltb_spec VAD_CHUNK_SIZE (length samples)); [reflexivity|lia].
    + intros Hlt. unfold resize_chunk.
      destruct (Nat.eqb_spec (length samples) VAD_CHUNK_SIZE); [lia|]. simpl.
      destruct (Nat.ltb_spec VAD_CHUNK_SIZE (length samples)); [lia|reflexivity].
    + unfold process_chunk, process_chunk_try. rewrite Hdec. fold scored.
      destruct (model m scored SAMPLE_RATE) as [m1 [e|p]]; simpl; [reflexivity|].
      destruct (above_threshold p && negb (speech_detected self));
        [reflexivity|].
      destruct (negb (above_threshold p) && speech_detected self); reflexivity.
    + intros m' p Hmod. eapply process_chunk_scored; eassumption.
  - intros m' self' e H.
    pose proof (process_chunk_try_raises _ _ _ _ _ _ _ _ H) as Hself.
    split.
    + unfold process_chunk. rewrite H, Hself. reflexivity.
    + eapply ProcessAudio_step_raises. simpl. exact H.
Qed.

(** Whether a chunk is scored, and the state of the model afterwards, do
    not depend on the session. *)
Lemma process_chunk_try_any_session m self chunk :
  match process_chunk_try model m self chunk,
        process_chunk_try model m VADProcessor_new chunk with
  | (m1, _, inl e1), (m2, _, inl e2) => m1 = m2 /\ e1 = e2
  | (m1, _, inr _), (m2, _, inr _) => m1 = m2
  | _, _ => False
  end.
Proof.
  unfold process_chunk_try.
  destruct (frombuffer_int16 chunk) as [e0|samples]; [split; reflexivity|].
  destruct (model m _ SAMPLE_RATE) as [m1 [e1|p]]; [split; reflexivity|].
  destruct (above_threshold p), (speech_detected self); simpl; reflexivity.
Qed.

Lemma scored_chunks_raises m self request rest m' self' e :
  process_chunk_try model m self (audio_data request) = (m', self', inl e) ->
  scored_chunks model m (request :: rest) = scored_chunks model m' rest.
Proof.
  intros H. pose proof (process_chunk_try_any_session m self (audio_data request)) as I.
  rewrite H in I. simpl.
  destruct (process_chunk_try model m VADProcessor_new (audio_data request))
    as [[m2 s2] [e2|st2]]; [|contradiction].
  destruct I as [-> _]. reflexivity.
Qed.

Lemma scored_chunks_returns m self request rest m' self' status :
  process_chunk_try model m self (audio_data request) = (m', self', inr status) ->
  scored_chunks model m (request :: rest) =
    audio_data request :: scored_chunks model m' rest.
Proof.
  intros H. pose proof (process_chunk_try_any_session m self (audio_data request)) as I.
  rewrite H in I. simpl.
  destruct (process_chunk_try model m VADProcessor_new (audio_data request))
    as [[m2 s2] [e2|st2]]; [contradiction|].
  rewrite I. reflexivity.
Qed.


Lemma ProcessAudio_loop_cons m self request rest :
  ProcessAudio_loop model m self (request :: rest) =
    let step := ProcessAudio_step model m self request in
    let tail := ProcessAudio_loop model step.1.1 step.1.2 rest in
    (tail.1.1, tail.1.2, step.2 :: tail.2).
Proof.
  simpl. destruct (ProcessAudio_step model m self request) as [[m1 p1] entry].
  simpl. destruct (ProcessAudio_loop model m1 p1 rest) as [[m2 p2] entries].
  reflexivity.
Qed.

Lemma ProcessAudio_loop_length m self requests :
  length (ProcessAudio_loop model m self requests).2 = length requests.
Proof.
  revert m self. induction requests as [|request rest IH]; intros m self.
  - reflexivity.
  - rewrite ProcessAudio_loop_cons. simpl. rewrite IH. reflexivity.
Qed.

(** C10: the exception path is atomic. When the processing of a chunk
    raises (the bytes are not decodable as 16-bit samples, or the model
    raises), the session is exactly as before the chunk: the bytes are
    not recorded and the flag is unchanged, the status is ["continue"]
    and nothing is yielded; the rest of the stream is handled from the
    unchanged session, and the chunk is not among those a later flush
    counts. *)
Theorem exception_path_atomic m self request m' self' e :
  process_chunk_try model m self (audio_data request) = (m', self', inl e) ->
  self' = self /\
  process_chunk model m self (audio_data request) = (m', self, "continue") /\
  ProcessAudio_step model m self request = (m', self, ("continue", None)) /\
  (forall rest,
     ProcessAudio_loop model m self (request :: rest) =
       let tail := ProcessAudio_loop model m' self rest in
       (tail.1.1, tail.1.2, ("continue", None) :: tail.2)) /\
  (forall rest,
     scored_chunks model m (request :: rest) = scored_chunks model m' rest).
Proof.
  intros H.
  pose proof (process_chunk_try_raises _ _ _ _ _ _ _ _ H) as Hself.
  pose proof (ProcessAudio_step_raises _ _ _ _ _ _ H) as Hstep.
  split; [exact Hself|]. split; [|split; [exact Hstep|split]].
  - unfold process_chunk. rewrite H, Hself. reflexivity.
  - intros rest. rewrite ProcessAudio_loop_cons, Hstep. reflexivity.
  - intros rest. eapply scored_chunks_raises. exact H.
Qed.


End Handler.

(** ** The stream of responses *)

Section Stream.

Variable ModelState : Type.
Variable model : ModelState -> list Q -> Z -> ModelState * (Exception + Q).

(** The responses of [ProcessAudio] are those of the loop run on the
    session of the peer. *)
Lemma ProcessAudio_yielded (srv : Server ModelState) peer requests fin :
  (ProcessAudio model srv peer requests fin).1.2 =
    yielded (ProcessAudio_loop model (model_state srv)
               (default VADProcessor_new (client_processors srv !! peer))
               requests).2.
Proof.
  unfold ProcessAudio.
  destruct (client_processors srv !! peer) as [processor|]; simpl;
    destruct (ProcessAudio_loop model (model_state srv) _ requests)
      as [[m' processor'] entries]; reflexivity.
Qed.


(** The chunks scored in a stream split at any point into those scored
    before and those scored after, from the model state reached. *)
Lemma scored_chunks_app m self requests rest :
  scored_chunks model m (requests ++ rest) =
    scored_chunks model m requests ++
    scored_chunks model (ProcessAudio_loop model m self requests).1.1 rest.
Proof.
  revert m self. induction requests as [|request requests IH]; intros m self.
  - reflexivity.
  - rewrite ProcessAudio_loop_cons.
    change ((request :: requests) ++ rest) with (request :: (requests ++ rest)).
    destruct (process_chunk_try model m self (audio_data request))
      as [[m1 self1] [e|status]] eqn:E.
    + rewrite (scored_chunks_raises _ model _ _ _ _ _ _ _ E).
      rewrite (scored_chunks_raises _ model _ _ _ _ _ _ _ E).
      rewrite (ProcessAudio_step_raises _ model _ _ _ _ _ _ E). simpl.
      apply IH.
    + rewrite (scored_chunks_returns _ model _ _ _ _ _ _ _ E).
      rewrite (scored_chunks_returns _ model _ _ _ _ _ _ _ E).
      destruct (ProcessAudio_step_returns _ model _ _ _ _ _ _ E)
        as [_ [(_ & ->) | [(_ & ->) | (_ & ->)]]]; simpl;
        f_equal; apply IH.
Qed.

(** While no ["end"] occurs, the accumulator grows by the chunks scored. *)
Lemma loop_without_end_accumulates m self requests :
  Forall (fun entry : string * option VADResponse => entry.1 <> "end")
    (ProcessAudio_loop model m self requests).2 ->
  accumulated_audio (ProcessAudio_loop model m self requests).1.2 =
    accumulated_audio self ++ scored_chunks model m requests.
Proof.
  revert m self. induction requests as [|request requests IH]; intros m self.
  - intros _. simpl. rewrite app_nil_r. reflexivity.
  - rewrite ProcessAudio_loop_cons. cbv zeta. cbn [fst snd]. intros Hall.
    apply Forall_cons in Hall as [Hhead Htail].
    destruct (process_chunk_try model m self (audio_data request))
      as [[m1 self1] [e|status]] eqn:E.
    + rewrite (scored_chunks_raises _ model _ _ _ _ _ _ _ E).
      rewrite (ProcessAudio_step_raises _ model _ _ _ _ _ _ E) in Htail |- *.
      simpl in *. apply IH. exact Htail.
    + rewrite (scored_chunks_returns _ model _ _ _ _ _ _ _ E).
      destruct (ProcessAudio_step_returns _ model _ _ _ _ _ _ E)
        as [Hacc [(_ & Hs) | [(_ & Hs) | (_ & Hs)]]];
        rewrite Hs in Hhead, Htail |- *; simpl in *.
      * rewrite (IH _ _ Htail), Hacc, <- app_assoc. reflexivity.
      * contradiction Hhead. reflexivity.
      * rewrite (IH _ _ Htail), Hacc, <- app_assoc. reflexivity.
Qed.

(** C3, amended: what a flush counts. A chunk that is decoded and scored
    without exception is appended to the accumulator whatever the status
    is; and from a session with an empty accumulator (a new session, or
    one just flushed or reset), when the requests processed give no
    ["end"] and the next one gives ["end"], the length reported by the
    response is the sum of the lengths of the chunks processed without
    exception, this last one included, and the accumulator is empty
    again. *)
Theorem flush_counts_scored_chunks m self requests request m2 self2 response :
  accumulated_audio self = [] ->
  let run := ProcessAudio_loop model m self requests in
  Forall (fun entry : string * option VADResponse => entry.1 <> "end") run.2 ->
  ProcessAudio_step model run.1.1 run.1.2 request =
    (m2, self2, ("end", Some response)) ->
  (forall m0 self0 chunk m1 self1 status,
     process_chunk_try model m0 self0 chunk = (m1, self1, inr status) ->
     accumulated_audio self1 = accumulated_audio self0 ++ [chunk]) /\
  message response =
    "Speech ended, "
    +:+ str_of_nat (total_len (scored_chunks model m (requests ++ [request])))
    +:+ " bytes processed for STT" /\
  accumulated_audio self2 = [].
Proof.
  intros Hempty run Hall Hstep.
  split.
  { intros m0 self0 chunk m1 self1 status H.
    apply (process_chunk_try_returns _ model _ _ _ _ _ _ H). }
  pose proof (loop_without_end_accumulates m self requests Hall) as Hacc.
  fold run in Hacc. rewrite Hempty in Hacc. simpl in Hacc.
  rewrite (scored_chunks_app m self requests [request]). fold run.
  destruct (process_chunk_try model run.1.1 run.1.2 (audio_data request))
    as [[m1 self1] [e|status]] eqn:E.
  - rewrite (ProcessAudio_step_raises _ model _ _ _ _ _ _ E) in Hstep.
    discriminate.
  - rewrite (scored_chunks_returns _ model _ _ _ _ _ _ _ E). simpl.
    destruct (ProcessAudio_step_returns _ model _ _ _ _ _ _ E)
      as [_ [(_ & Hs) | [(_ & Hs) | (_ & Hs)]]];
      rewrite Hs in Hstep; try discriminate.
    injection Hstep as <- <- <-. simpl. rewrite Hacc.
    split; reflexivity.
Qed.

(** The dictionary after the [finally] clause. *)
Lemma reset_if_present_lookup client_id (procs : gmap string VADProcessor) :
  reset_if_present client_id procs !! client_id =
    match procs !! client_id with
    | Some _ => Some (mkVADProcessor false [])
    | None => None
    end.
Proof.
  unfold reset_if_present.
  destruct (procs !! client_id) as [processor|] eqn:E.
  - apply lookup_insert_eq.
  - exact E.
Qed.

Lemma reset_if_present_other client_id other
    (procs : gmap string VADProcessor) :
  other <> client_id ->
  reset_if_present client_id procs !! other = procs !! other.
Proof.
  intros Hne. unfold reset_if_present.
  destruct (procs !! client_id); [|reflexivity].
  apply lookup_insert_ne. congruence.
Qed.

Lemma reset_if_present_idem client_id (procs : gmap string VADProcessor) :
  reset_if_present client_id (reset_if_present client_id procs) =
    reset_if_present client_id procs.
Proof.
  unfold reset_if_present at 2.
  destruct (procs !! client_id) as [processor|] eqn:E.
  - unfold reset_if_present. rewrite lookup_insert_eq, E.
    apply insert_insert_eq.
  - unfold reset_if_present. rewrite E. reflexivity.
Qed.

(** C4, amended: the end of a stream. When the requests stop, at the end
    of the stream or with an exception, [ProcessAudio] resets the session
    of the peer and keeps its entry in the dictionary: the entry is
    present, not speaking, with an empty accumulator; the other entries
    are untouched; and the next stream of the same peer is handled like
    that of a new session. *)
Theorem stream_end_resets_session (srv : Server ModelState) peer requests fin :
  let srv' := (ProcessAudio model srv peer requests fin).1.1 in
  client_processors srv' !! peer = Some (mkVADProcessor false []) /\
  (forall other, other <> peer ->
     client_processors srv' !! other = client_processors srv !! other) /\
  (forall requests2 fin2,
     (ProcessAudio model srv' peer requests2 fin2).1.2 =
       yielded (ProcessAudio_loop model (model_state srv') VADProcessor_new
                  requests2).2).
Proof.
  assert (Hpeer :
    client_processors (ProcessAudio model srv peer requests fin).1.1 !! peer
      = Some (mkVADProcessor false [])).
  { unfold ProcessAudio.
    destruct (client_processors srv !! peer) as [processor|];
      destruct (ProcessAudio_loop model (model_state srv) _ requests)
        as [[m' processor'] entries]; simpl;
      rewrite reset_if_present_lookup, lookup_insert_eq; reflexivity. }
  intros srv'. split; [exact Hpeer|]. split.
  - intros other Hne. unfold srv', ProcessAudio.
    destruct (client_processors srv !! peer) as [processor|];
      destruct (ProcessAudio_loop model (model_state srv) _ requests)
        as [[m' processor'] entries]; simpl;
      rewrite reset_if_present_other by exact Hne;
      rewrite ?lookup_insert_ne by congruence; reflexivity.
  - intros requests2 fin2. rewrite ProcessAudio_yielded.
    unfold srv'. rewrite Hpeer. reflexivity.
Qed.

(** C5: the unary reset. [ResetVAD] answers [success = True] whether the
    peer has a session or not; a session that exists is left not speaking
    with an empty accumulator; a second reset changes nothing more; the
    reset of a peer without session leaves the server as it is; the
    entries of the other peers are untouched. *)
Theorem ResetVAD_always_succeeds (srv : Server ModelState) peer :
  let srv' := (ResetVAD srv peer).1 in
  success (ResetVAD srv peer).2 = true /\
  (is_Some (client_processors srv !! peer) ->
     client_processors srv' !! peer = Some (mkVADProcessor false [])) /\
  ResetVAD srv' peer = ResetVAD srv peer /\
  (client_processors srv !! peer = None -> srv' = srv) /\
  (forall other, other <> peer ->
     client_processors srv' !! other = client_processors srv !! other).
Proof.
  intros srv'. unfold srv', ResetVAD. simpl.
  split; [reflexivity|]. split; [|split; [|split]].
  - intros [processor E]. rewrite reset_if_present_lookup, E. reflexivity.
  - rewrite reset_if_present_idem. reflexivity.
  - intros E. unfold reset_if_present. rewrite E. destruct srv; reflexivity.
  - intros other Hne. apply reset_if_present_other. exact Hne.
Qed.

End Stream.

(** ** The frame generator *)

Section Chunker.

(** The number of bytes of a full read, which is also [bytes_per_chunk]
    for a mono file. *)
Variable F : nat.
Hypothesis F_pos : 0 < F.

Lemma read_loop_S fuel running k wf data :
  read_loop (S fuel) running k F wf data =
    if truthy data && running k then
      let yielded :=
        if (length data =? F)%nat then [data]
        else if (0 <? length data)%nat then [data ++ repeat x00 (F - length data)]
        else [] in
      match read_loop fuel running (S k) F (readframes VAD_CHUNK_SIZE wf).2
              (readframes VAD_CHUNK_SIZE wf).1 with
      | Some rest => Some (yielded ++ rest)
      | None => None
      end
    else Some [].
Proof. reflexivity. Qed.



End Chunker.


(** ** The loop, one scored chunk at a time *)

Section LoopSteps.

Variable ModelState : Type.
Variable model : ModelState -> list Q -> Z -> ModelState * (Exception + Q).

Lemma ProcessAudio_loop_start m self request rest samples m' p :
  frombuffer_int16 (audio_data request) = inr samples ->
  model m (normalize (resize_chunk samples)) SAMPLE_RATE = (m', inr p) ->
  speech_detected self = false ->
  above_threshold p = true ->
  ProcessAudio_loop model m self (request :: rest) =
    let tail :=
      ProcessAudio_loop model m'
        (mkVADProcessor true (accumulated_audio self ++ [audio_data request]))
        rest in
    (tail.1.1, tail.1.2,
     ("start", Some (mkVADResponse "start" "Speech detected")) :: tail.2).
Proof.
  intros Hdec Hmod Hs Hp. rewrite ProcessAudio_loop_cons.
  unfold ProcessAudio_step.
  rewrite (process_chunk_scored _ model _ _ _ _ _ _ Hdec Hmod), Hs, Hp.
  reflexivity.
Qed.

Lemma ProcessAudio_loop_end m self request rest samples m' p :
  frombuffer_int16 (audio_data request) = inr samples ->
  model m (normalize (resize_chunk samples)) SAMPLE_RATE = (m', inr p) ->
  speech_detected self = true ->
  above_threshold p = false ->
  ProcessAudio_loop model m self (request :: rest) =
    let tail := ProcessAudio_loop model m' (mkVADProcessor false []) rest in
    (tail.1.1, tail.1.2,
     ("end",
      Some (mkVADResponse "end"
              ("Speech ended, "
               +:+ str_of_nat
                     (total_len (accumulated_audio self ++ [audio_data request]))
               +:+ " bytes processed for STT"))) :: tail.2).
Proof.
  intros Hdec Hmod Hs Hp. rewrite ProcessAudio_loop_cons.
  unfold ProcessAudio_step.
  rewrite (process_chunk_scored _ model _ _ _ _ _ _ Hdec Hmod), Hs, Hp.
  cbn [status_of andb negb String.eqb Ascii.eqb Bool.eqb get_accumulated_audio
       speech_detected accumulated_audio].
  rewrite length_join. reflexivity.
Qed.

Lemma ProcessAudio_loop_continue m self request rest samples m' p :
  frombuffer_int16 (audio_data request) = inr samples ->
  model m (normalize (resize_chunk samples)) SAMPLE_RATE = (m', inr p) ->
  above_threshold p = speech_detected self ->
  ProcessAudio_loop model m self (request :: rest) =
    let tail :=
      ProcessAudio_loop model m'
        (mkVADProcessor (speech_detected self)
           (accumulated_audio self ++ [audio_data request]))
        rest in
    (tail.1.1, tail.1.2, ("continue", None) :: tail.2).
Proof.
  intros Hdec Hmod Hp. rewrite ProcessAudio_loop_cons.
  unfold ProcessAudio_step.
  rewrite (process_chunk_scored _ model _ _ _ _ _ _ Hdec Hmod), Hp.
  destruct (speech_detected self); reflexivity.
Qed.

End LoopSteps.

(** A chunk of an even number of bytes is decoded. *)
Lemma even_length_decoded (chunk : bytes) :
  Nat.even (length chunk) = true ->
  exists samples, frombuffer_int16 chunk = inr samples.
Proof.
  intros H. apply Nat.even_spec in H as [n Hn].
  destruct (frombuffer_int16_even n chunk Hn) as (samples & Hs & _).
  exists samples. exact Hs.
Qed.

Lemma yielded_map (entries : list (string * option VADResponse)) :
  yielded entries = omap id (map snd entries).
Proof.
  unfold yielded. induction entries as [|[status [response|]] entries IH];
    simpl; [reflexivity| |exact IH].
  f_equal. exact IH.
Qed.

(** ** The ten-frame scenario *)

Ltac scored_step lem :=
  erewrite lem; [ | eassumption | reflexivity | reflexivity .. ]; cbv zeta.

(** C2: the scenario of ten frames. A new session receives ten chunks,
    each a whole number of samples, scored 0.1, 0.1, 0.9, 0.9, 0.9, 0.2,
    0.2, 0.9, 0.1, 0.1 by the scripted scorer. The loop yields ["start"] at
    frame 3, ["end"] at frame 6, ["start"] at frame 8 and ["end"] at frame
    9, and nothing at the other frames; the responses of [ProcessAudio] are
    these four in this order; the two ["end"] messages carry the lengths of
    frames 1 to 6 and of frames 7 to 9. *)
Theorem scenario_events (procs : gmap string VADProcessor) (peer : string)
    (requests : list AudioChunk) :
  procs !! peer = None ->
  length requests = 10%nat ->
  Forall (fun r => Nat.even (length (audio_data r)) = true) requests ->
  let chunks := map audio_data requests in
  let first_flush := flushed (total_len (take 6 chunks)) in
  let second_flush := flushed (total_len (take 3 (drop 6 chunks))) in
  let run :=
    ProcessAudio scripted_model (mkServer scenario_scores procs) peer requests
      EndOfStream in
  map snd (ProcessAudio_loop scripted_model scenario_scores VADProcessor_new
             requests).2 =
    [None; None; Some started; None; None; Some first_flush; None;
     Some started; Some second_flush; None] /\
  run.1.2 = [started; first_flush; started; second_flush] /\
  map event run.1.2 = ["start"; "end"; "start"; "end"] /\
  run.2 = RpcOk.
Proof.
  intros Hnew Hlen Heven.
  do 10 (destruct requests as [|? requests]; [discriminate Hlen|]).
  destruct requests; [clear Hlen|discriminate Hlen].
  repeat match goal with
         | H : Forall _ (_ :: _) |- _ =>
             let Hd := fresh "Hdec" in
             apply Forall_cons in H as [Hd H];
             apply even_length_decoded in Hd as [? Hd]
         end.
  clear Heven.
  intros chunks first_flush second_flush run.
  assert (Hloop :
    map snd (ProcessAudio_loop scripted_model scenario_scores VADProcessor_new
               [a; a0; a1; a2; a3; a4; a5; a6; a7; a8]).2 =
    [None; None; Some started; None; None; Some first_flush; None;
     Some started; Some second_flush; None]).
  { unfold scenario_scores.
    scored_step ProcessAudio_loop_continue.
    scored_step ProcessAudio_loop_continue.
    scored_step ProcessAudio_loop_start.
    scored_step ProcessAudio_loop_continue.
    scored_step ProcessAudio_loop_continue.
    scored_step ProcessAudio_loop_end.
    scored_step ProcessAudio_loop_continue.
    scored_step ProcessAudio_loop_start.
    scored_step ProcessAudio_loop_end.
    scored_step ProcessAudio_loop_continue.
    reflexivity. }
  assert (Hrun : run.1.2 = [started; first_flush; started; second_flush]).
  { unfold run. rewrite ProcessAudio_yielded.
    cbn [model_state client_processors]. rewrite Hnew. cbn [default].
    rewrite yielded_map, Hloop. reflexivity. }
  split; [exact Hloop|]. split; [exact Hrun|]. split.
  - rewrite Hrun. reflexivity.
  - unfold run, ProcessAudio. cbn [model_state client_processors].
    rewrite Hnew.
    destruct (ProcessAudio_loop scripted_model scenario_scores VADProcessor_new _)
      as [[m' processor'] entries].
    reflexivity.
Qed.

(** * Instances

    The theorems above at concrete inputs, with the scripted scorer. *)

Lemma process_chunk_transition_witness :
  process_chunk scripted_model [9 # 10; 8 # 10]%Q VADProcessor_new speech_chunk =
    ([8 # 10]%Q, mkVADProcessor true [speech_chunk], "start") /\
  (process_chunk scripted_model [8 # 10]%Q
     (mkVADProcessor true [speech_chunk]) speech_chunk).2 = "continue".
Proof.
  destruct (process_chunk_transition (list Q) scripted_model
              [9 # 10; 8 # 10]%Q VADProcessor_new speech_chunk [10000%Z]
              [8 # 10]%Q (9 # 10)%Q eq_refl eq_refl)
    as (Hstart & _ & _ & _ & Htwice).
  split.
  - apply Hstart; reflexivity.
  - apply (Htwice speech_chunk [10000%Z] [] (8 # 10)%Q); reflexivity.
Defined.

Lemma scenario_events_witness :
  map event
    (ProcessAudio scripted_model (mkServer scenario_scores ∅) peer0
       (repeat (mkAudioChunk silent_frame) 10) EndOfStream).1.2
  = ["start"; "end"; "start"; "end"].
Proof.
  destruct (scenario_events ∅ peer0 (repeat (mkAudioChunk silent_frame) 10))
    as (_ & _ & Hevents & _).
  - reflexivity.
  - reflexivity.
  - repeat constructor.
  - exact Hevents.
Defined.

Lemma flush_counts_scored_chunks_witness :
  message (flushed 4) =
    "Speech ended, "
    +:+ str_of_nat
          (total_len
             (scored_chunks scripted_model [9 # 10; 1 # 10]%Q
                ([mkAudioChunk speech_chunk; mkAudioChunk odd_chunk]
                 ++ [mkAudioChunk silence_chunk])))
    +:+ " bytes processed for STT".
Proof.
  destruct (flush_counts_scored_chunks (list Q) scripted_model
              [9 # 10; 1 # 10]%Q VADProcessor_new
              [mkAudioChunk speech_chunk; mkAudioChunk odd_chunk]
              (mkAudioChunk silence_chunk) [] (mkVADProcessor false [])
              (flushed 4))
    as (_ & Hmsg & _).
  - reflexivity.
  - repeat constructor; discriminate.
  - reflexivity.
  - exact Hmsg.
Defined.

Lemma stream_end_resets_session_witness :
  client_processors
    (ProcessAudio scripted_model (mkServer [9 # 10]%Q ∅) peer0
       [mkAudioChunk speech_chunk] (StreamRaises "cancelled")).1.1 !! peer0
  = Some (mkVADProcessor false []).
Proof.
  exact (proj1 (stream_end_resets_session (list Q) scripted_model
                  (mkServer [9 # 10]%Q ∅) peer0 [mkAudioChunk speech_chunk]
                  (StreamRaises "cancelled"))).
Defined.

Lemma ResetVAD_always_succeeds_witness :
  let srv :=
    mkServer ([] : list Q) {[ peer0 := mkVADProcessor true [speech_chunk] ]} in
  success (ResetVAD srv peer0).2 = true /\
  client_processors (ResetVAD srv peer0).1 !! peer0 =
    Some (mkVADProcessor false []) /\
  (ResetVAD (mkServer ([] : list Q) ∅) peer0).1 = mkServer [] ∅.
Proof.
  intros srv.
  destruct (ResetVAD_always_succeeds (list Q) srv peer0)
    as (Hok & Hreset & _ & _ & _).
  destruct (ResetVAD_always_succeeds (list Q) (mkServer [] ∅) peer0)
    as (_ & _ & _ & Habsent & _).
  split; [exact Hok|]. split.
  - apply Hreset. exists (mkVADProcessor true [speech_chunk]). reflexivity.
  - apply Habsent. reflexivity.
Defined.


Lemma malformed_chunk_policy_witness :
  length (normalize (resize_chunk [10000%Z])) = VAD_CHUNK_SIZE /\
  process_chunk scripted_model [9 # 10]%Q VADProcessor_new speech_chunk =
    ([], mkVADProcessor true [speech_chunk], "start") /\
  process_chunk scripted_model [] (mkVADProcessor true [speech_chunk])
    silence_chunk = ([], mkVADProcessor true [speech_chunk], "continue").
Proof.
  destruct (malformed_chunk_policy (list Q) scripted_model [9 # 10]%Q
              VADProcessor_new speech_chunk) as [Hresize _].
  destruct (Hresize [10000%Z] eq_refl) as (Hlen & _ & _ & _ & Hscored).
  { discriminate. }
  destruct (malformed_chunk_policy (list Q) scripted_model []
              (mkVADProcessor true [speech_chunk]) silence_chunk)
    as [_ Hraise].
  split; [exact Hlen|]. split.
  - exact (Hscored [] (9 # 10)%Q eq_refl).
  - exact (proj1 (Hraise [] (mkVADProcessor true [speech_chunk])
                    "no score left" eq_refl)).
Defined.


Lemma exception_path_atomic_witness :
  ProcessAudio_step scripted_model [1 # 10]%Q
    (mkVADProcessor true [speech_chunk]) (mkAudioChunk odd_chunk) =
  ([1 # 10]%Q, mkVADProcessor true [speech_chunk], ("continue", None)).
Proof.
  destruct (exception_path_atomic (list Q) scripted_model [1 # 10]%Q
              (mkVADProcessor true [speech_chunk]) (mkAudioChunk odd_chunk)
              [1 # 10]%Q (mkVADProcessor true [speech_chunk])
              "buffer size must be a multiple of element size" eq_refl)
    as (_ & _ & Hstep & _).
  exact Hstep.
Defined.

(** ** Where the code departs from a claim *)

(** C3, as stated, fails: a chunk that is not decodable is processed with
    the status ["continue"] and its bytes are not appended; the ["end"]
    that follows reports 4 bytes, while the three chunks processed since
    the session began are 5 bytes long. *)
Lemma undecodable_chunk_not_recorded :
  let speaking := mkVADProcessor true [speech_chunk] in
  process_chunk scripted_model [1 # 10]%Q speaking odd_chunk =
    ([1 # 10]%Q, speaking, "continue") /\
  accumulated_audio
    (process_chunk scripted_model [1 # 10]%Q speaking odd_chunk).1.2
    <> accumulated_audio speaking ++ [odd_chunk] /\
  (ProcessAudio scripted_model (mkServer [9 # 10; 1 # 10]%Q ∅) peer0
     [mkAudioChunk speech_chunk; mkAudioChunk odd_chunk;
      mkAudioChunk silence_chunk] EndOfStream).1.2 = [started; flushed 4] /\
  total_len [speech_chunk; odd_chunk; silence_chunk] = 5%nat /\
  message (flushed 4) <> message (flushed 5).
Proof.
  intros speaking. split; [reflexivity|]. split; [discriminate|].
  split; [reflexivity|]. split; [reflexivity|discriminate].
Qed.

(** C4, as stated, fails: after a stream has ended, at the end of the
    requests or with an exception, the entry of the peer is still in the
    dictionary. *)
Lemma stream_end_keeps_entry :
  client_processors
    (ProcessAudio scripted_model (mkServer [9 # 10]%Q ∅) peer0
       [mkAudioChunk speech_chunk] EndOfStream).1.1 !! peer0 <> None /\
  client_processors
    (ProcessAudio scripted_model (mkServer [9 # 10]%Q ∅) peer0
       [mkAudioChunk speech_chunk] (StreamRaises "cancelled")).1.1 !! peer0
    <> None.
Proof. split; discriminate. Qed.



(** * Further properties *)

(** ** Decoding and the input of the model *)


Lemma byte_to_N_inj (x y : byte) : Byte.to_N x = Byte.to_N y -> x = y.
Proof.
  intros H. pose proof (Byte.of_to_N x) as Hx. rewrite H, Byte.of_to_N in Hx.
  congruence.
Qed.

Lemma int16_le_inj (lo hi lo' hi' : byte) :
  int16_le lo hi = int16_le lo' hi' -> lo = lo' /\ hi = hi'.
Proof.
  unfold int16_le.
  pose proof (Byte.to_N_bounded lo). pose proof (Byte.to_N_bounded hi).
  pose proof (Byte.to_N_bounded lo'). pose proof (Byte.to_N_bounded hi').
  intros Heq.
  assert (Byte.to_N lo = Byte.to_N lo' /\ Byte.to_N hi = Byte.to_N hi') as [Hl Hh].
  { destruct (Z.ltb_spec (Z.of_N (Byte.to_N lo) + 256 * Z.of_N (Byte.to_N hi)) 32768),
             (Z.ltb_spec (Z.of_N (Byte.to_N lo') + 256 * Z.of_N (Byte.to_N hi')) 32768);
      lia. }
  split; apply byte_to_N_inj; assumption.
Qed.

Lemma frombuffer_int16_cons2 (lo hi : byte) (rest : bytes) :
  frombuffer_int16 (lo :: hi :: rest) =
    match frombuffer_int16 rest with
    | inl e => inl e
    | inr l => inr (int16_le lo hi :: l)
    end.
Proof. reflexivity. Qed.


Lemma frombuffer_int16_length (samples : list Z) :
  forall chunk : bytes,
    frombuffer_int16 chunk = inr samples ->
    length chunk = (2 * length samples)%nat.
Proof.
  induction samples as [|s samples IH]; intros chunk H.
  - destruct chunk as [|a [|b r]]; [reflexivity|discriminate|].
    rewrite frombuffer_int16_cons2 in H.
    destruct (frombuffer_int16 r); discriminate.
  - destruct chunk as [|a [|b r]]; try discriminate.
    rewrite frombuffer_int16_cons2 in H.
    destruct (frombuffer_int16 r) as [e|l] eqn:E; [discriminate|].
    injection H as _ ->. simpl. rewrite (IH r E). lia.
Qed.

(** X1: [np.frombuffer] accepts exactly the buffers of an even number of
    bytes, and a buffer decoded has two bytes per sample. *)
Theorem frombuffer_int16_decodes (chunk : bytes) :
  ((exists samples, frombuffer_int16 chunk = inr samples) <->
   Nat.even (length chunk) = true) /\
  (forall samples, frombuffer_int16 chunk = inr samples ->
     length chunk = (2 * length samples)%nat) /\
  (forall e, frombuffer_int16 chunk = inl e ->
     Nat.odd (length chunk) = true).
Proof.
  assert (Hodd : Nat.odd (length chunk) = true ->
                 exists e, frombuffer_int16 chunk = inl e).
  { intros H. apply Nat.odd_spec in H as [n Hn].
    apply (frombuffer_int16_odd n). lia. }
  assert (Heven : Nat.even (length chunk) = true ->
                  exists samples, frombuffer_int16 chunk = inr samples /\
                                  length chunk = (2 * length samples)%nat).
  { intros H. apply Nat.even_spec in H as [n Hn].
    destruct (frombuffer_int16_even n chunk Hn) as (samples & Hs & Hl).
    exists samples. split; [exact Hs|lia]. }
  assert (Hcases : Nat.even (length chunk) = true \/ Nat.odd (length chunk) = true).
  { unfold Nat.odd. destruct (Nat.even (length chunk)); auto. }
  split; [split|split].
  - intros [samples Hs]. destruct Hcases as [H|H]; [exact H|].
    destruct (Hodd H) as [e He]. congruence.
  - intros H. destruct (Heven H) as (samples & Hs & _). eauto.
  - intros samples Hs. destruct Hcases as [H|H].
    + destruct (Heven H) as (samples' & Hs' & Hl). congruence.
    + destruct (Hodd H) as [e He]. congruence.
  - intros e He. destruct Hcases as [H|H]; [|exact H].
    destruct (Heven H) as (samples & Hs & _). congruence.
Qed.

(** X2: decoding loses nothing. Two buffers decoded to the same samples
    are the same bytes. *)
Theorem frombuffer_int16_injective (chunk1 chunk2 : bytes) (samples : list Z) :
  frombuffer_int16 chunk1 = inr samples ->
  frombuffer_int16 chunk2 = inr samples ->
  chunk1 = chunk2.
Proof.
  revert chunk1 chunk2.
  induction samples as [|s samples IH]; intros chunk1 chunk2 H1 H2.
  - destruct chunk1 as [|a [|b r]]; [|discriminate|].
    + destruct chunk2 as [|a' [|b' r']]; [reflexivity|discriminate|].
      rewrite frombuffer_int16_cons2 in H2.
      destruct (frombuffer_int16 r'); discriminate.
    + rewrite frombuffer_int16_cons2 in H1.
      destruct (frombuffer_int16 r); discriminate.
  - destruct chunk1 as [|a [|b r]]; try discriminate.
    destruct chunk2 as [|a' [|b' r']]; try discriminate.
    rewrite frombuffer_int16_cons2 in H1, H2.
    destruct (frombuffer_int16 r) as [e|l] eqn:E; [discriminate|].
    destruct (frombuffer_int16 r') as [e'|l'] eqn:E'; [discriminate|].
    injection H1 as Hs Hl. injection H2 as Hs' Hl'. subst l l'.
    rewrite <- Hs' in Hs. apply int16_le_inj in Hs as [-> ->].
    f_equal. f_equal. apply IH; assumption.
Qed.



(** ** The session over a whole stream *)

Lemma alternating_counts (events : list string) :
  forall speaking : bool,
    alternating speaking events ->
    let starts := length (filter (fun e : string => e = "start") events) in
    let ends := length (filter (fun e : string => e = "end") events) in
    if speaking then starts <= ends <= starts + 1
    else ends <= starts <= ends + 1.
Proof.
  induction events as [|e events IH]; intros speaking Halt.
  - destruct speaking; simpl; lia.
  - destruct Halt as [He Hrest]. specialize (IH _ Hrest). cbv zeta in IH |- *.
    destruct speaking; subst e; cbn [negb] in IH.
    + rewrite (filter_cons_False (fun e : string => e = "start")) by discriminate.
      rewrite (filter_cons_True (fun e : string => e = "end")) by reflexivity.
      simpl length. lia.
    + rewrite (filter_cons_True (fun e : string => e = "start")) by reflexivity.
      rewrite (filter_cons_False (fun e : string => e = "end")) by discriminate.
      simpl length. lia.
Qed.

Section Session.

Variable ModelState : Type.
Variable model : ModelState -> list Q -> Z -> ModelState * (Exception + Q).

Lemma yielded_cons_none status entries :
  yielded ((status, None) :: entries) = yielded entries.
Proof. reflexivity. Qed.

Lemma yielded_cons_some status response entries :
  yielded ((status, Some response) :: entries) = response :: yielded entries.
Proof. reflexivity. Qed.

(** One iteration, by the outcome of [process_chunk]: the entry, the flag
    and the accumulator afterwards. *)
Lemma ProcessAudio_step_outcome m self request :
  let step := ProcessAudio_step model m self request in
  let recorded := accumulated_audio self ++ [audio_data request] in
  (exists m' self' e,
     process_chunk_try model m self (audio_data request) = (m', self', inl e) /\
     step = (m', self, ("continue", None))) \/
  (exists m' self' status,
     process_chunk_try model m self (audio_data request) = (m', self', inr status) /\
     (speech_detected self = false /\
        step = (m', mkVADProcessor true recorded, ("start", Some started))
      \/ speech_detected self = true /\
        step = (m', mkVADProcessor false [],
                ("end", Some (flushed (total_len recorded))))
      \/ step = (m', mkVADProcessor (speech_detected self) recorded,
                 ("continue", None)))).
Proof.
  intros step recorded. unfold step.
  destruct (process_chunk_try model m self (audio_data request))
    as [[m' self'] [e|status]] eqn:E.
  - left. exists m', self', e. split; [reflexivity|].
    eapply ProcessAudio_step_raises. exact E.
  - right. exists m', self', status. split; [reflexivity|].
    destruct (process_chunk_try_returns _ model _ _ _ _ _ _ E) as [Hacc Hflag].
    destruct (ProcessAudio_step_returns _ model _ _ _ _ _ _ E)
      as [_ [(Hst & Hs) | [(Hst & Hs) | (Hst & Hs)]]]; rewrite Hs; subst status;
      destruct Hflag as [(Hd & H0 & H1) | [(Hd & H0 & H1) | (Hd & H1)]];
      try discriminate Hd; destruct self' as [flag acc]; simpl in *; subst.
    + left. split; [assumption|reflexivity].
    + right; left. split; [assumption|reflexivity].
    + right; right. reflexivity.
Qed.

Lemma loop_events_alternate requests :
  forall m self,
    alternating (speech_detected self)
      (map event (yielded (ProcessAudio_loop model m self requests).2)).
Proof.
  induction requests as [|request requests IH]; intros m self.
  - exact I.
  - rewrite ProcessAudio_loop_cons. cbv zeta. cbn [snd].
    destruct (ProcessAudio_step_outcome m self request)
      as [(m' & self' & e & _ & Hs)
         | (m' & self' & status & _ & [(Hf & Hs) | [(Hf & Hs) | Hs]])];
      rewrite Hs; cbn [fst snd].
    + rewrite yielded_cons_none. apply IH.
    + rewrite yielded_cons_some. simpl. rewrite Hf. split; [reflexivity|].
      apply (IH m' (mkVADProcessor true _)).
    + rewrite yielded_cons_some. simpl. rewrite Hf. split; [reflexivity|].
      apply (IH m' (mkVADProcessor false [])).
    + rewrite yielded_cons_none. apply (IH m' (mkVADProcessor _ _)).
Qed.

(** X4: a chunk of an odd number of bytes never reaches the model. Its
    status is ["continue"], nothing is yielded, and the session and the
    state of the model are what they were. *)
Theorem odd_chunk_ignored m self chunk :
  Nat.odd (length chunk) = true ->
  process_chunk model m self chunk = (m, self, "continue") /\
  ProcessAudio_step model m self (mkAudioChunk chunk) =
    (m, self, ("continue", None)).
Proof.
  intros Hodd. apply Nat.odd_spec in Hodd as [n Hn].
  destruct (frombuffer_int16_odd n chunk) as [e He]; [lia|].
  pose proof (process_chunk_undecodable _ model m self chunk e He) as Htry.
  split.
  - unfold process_chunk. rewrite Htry. reflexivity.
  - eapply ProcessAudio_step_raises. exact Htry.
Qed.

(** X5: the events of a stream alternate. The responses of [ProcessAudio]
    are ["end"] or ["start"] in turn, the first being ["start"] when the
    session of the peer is not speaking (as for a new peer); there are then
    as many ["end"] as ["start"], or one less. *)
Theorem events_alternate (srv : Server ModelState) peer requests fin :
  let session := default VADProcessor_new (client_processors srv !! peer) in
  let events := map event (ProcessAudio model srv peer requests fin).1.2 in
  alternating (speech_detected session) events /\
  (speech_detected session = false ->
     let starts := length (filter (fun e : string => e = "start") events) in
     let ends := length (filter (fun e : string => e = "end") events) in
     ends <= starts <= ends + 1).
Proof.
  intros session events.
  assert (Halt : alternating (speech_detected session) events).
  { unfold events. rewrite ProcessAudio_yielded. apply loop_events_alternate. }
  split; [exact Halt|].
  intros Hsilent. rewrite Hsilent in Halt.
  exact (alternating_counts events false Halt).
Qed.

(** X6: no byte scored is lost or counted twice. Over any run of the loop,
    the lengths reported by the ["end"] responses, plus the length of what
    is left in the accumulator, are the length of what the accumulator
    held before plus the lengths of the chunks scored. *)
Theorem flushed_bytes_conserved m self requests :
  let run := ProcessAudio_loop model m self requests in
  exists lengths,
    List.filter is_end (yielded run.2) = map flushed lengths /\
    (sum_list lengths + total_len (accumulated_audio run.1.2) =
       total_len (accumulated_audio self)
       + total_len (scored_chunks model m requests))%nat.
Proof.
  revert m self. induction requests as [|request requests IH]; intros m self.
  - exists []. split; [reflexivity|]. simpl. lia.
  - cbv zeta. rewrite ProcessAudio_loop_cons. cbv zeta. cbn [fst snd].
    destruct (ProcessAudio_step_outcome m self request)
      as [(m' & self' & e & Htry & Hs)
         | (m' & self' & status & Htry & [(Hf & Hs) | [(Hf & Hs) | Hs]])];
      rewrite Hs; cbn [fst snd];
      [rewrite (scored_chunks_raises _ model _ _ _ _ _ _ _ Htry)
      |rewrite (scored_chunks_returns _ model _ _ _ _ _ _ _ Htry)..].
    + rewrite yielded_cons_none. apply IH.
    + destruct (IH m' (mkVADProcessor true
                         (accumulated_audio self ++ [audio_data request])))
        as (lengths & Hl & Hsum).
      exists lengths. rewrite yielded_cons_some. split; [exact Hl|].
      cbn [accumulated_audio] in Hsum. rewrite total_len_app in Hsum.
      unfold total_len in *. simpl in *. lia.
    + destruct (IH m' (mkVADProcessor false [])) as (lengths & Hl & Hsum).
      exists (total_len (accumulated_audio self ++ [audio_data request])
              :: lengths).
      rewrite yielded_cons_some. split.
      * change (List.filter is_end (flushed _ :: ?l))
          with (flushed (total_len (accumulated_audio self ++ [audio_data request]))
                :: List.filter is_end l).
        rewrite Hl. reflexivity.
      * cbn [accumulated_audio] in Hsum. rewrite total_len_app.
        unfold total_len in *. simpl in *. lia.
    + destruct (IH m' (mkVADProcessor (speech_detected self)
                         (accumulated_audio self ++ [audio_data request])))
        as (lengths & Hl & Hsum).
      exists lengths. rewrite yielded_cons_none. split; [exact Hl|].
      cbn [accumulated_audio] in Hsum. rewrite total_len_app in Hsum.
      unfold total_len in *. simpl in *. lia.
Qed.

(** X7: what a flush hands over. From an empty accumulator, when the
    requests processed give no ["end"] and the next chunk gives ["end"],
    [get_accumulated_audio] returns the chunks scored since then, this one
    included, joined in the order of arrival, and leaves the accumulator
    empty. *)
Theorem flush_payload_is_scored_audio m self requests request m2 self2 :
  accumulated_audio self = [] ->
  let run := ProcessAudio_loop model m self requests in
  Forall (fun entry : string * option VADResponse => entry.1 <> "end") run.2 ->
  process_chunk model run.1.1 run.1.2 (audio_data request) = (m2, self2, "end") ->
  (get_accumulated_audio self2).2 =
    join (scored_chunks model m (requests ++ [request])) /\
  accumulated_audio (get_accumulated_audio self2).1 = [].
Proof.
  intros Hempty run Hall Hend.
  split; [|reflexivity].
  pose proof (loop_without_end_accumulates _ model m self requests Hall) as Hacc.
  fold run in Hacc. rewrite Hempty in Hacc. simpl in Hacc.
  rewrite (scored_chunks_app _ model m self requests [request]). fold run.
  unfold process_chunk in Hend.
  destruct (process_chunk_try model run.1.1 run.1.2 (audio_data request))
    as [[m1 self1] [e|status]] eqn:E; [discriminate|].
  injection Hend as -> -> ->.
  rewrite (scored_chunks_returns _ model _ _ _ _ _ _ _ E).
  destruct (process_chunk_try_returns _ model _ _ _ _ _ _ E) as [Hrec _].
  unfold get_accumulated_audio. cbn [snd]. rewrite Hrec, Hacc. reflexivity.
Qed.

End Session.

(** ** The dictionary of the servicer over complete calls *)

Section Registry.

Variable ModelState : Type.
Variable model : ModelState -> list Q -> Z -> ModelState * (Exception + Q).

(** After [ProcessAudio] the entry of the peer is a reset processor, and
    the other entries are those of before. *)
Lemma ProcessAudio_registry (srv : Server ModelState) peer requests fin :
  client_processors (ProcessAudio model srv peer requests fin).1.1 =
    <[peer := VADProcessor_new]> (client_processors srv).
Proof.
  unfold ProcessAudio.
  destruct (client_processors srv !! peer) as [processor|] eqn:E;
    destruct (ProcessAudio_loop model (model_state srv) _ requests)
      as [[m' processor'] entries]; cbn [fst snd client_processors];
    unfold reset_if_present; rewrite lookup_insert_eq; unfold reset;
    rewrite ?insert_insert_eq; reflexivity.
Qed.

Lemma reset_if_present_idle peer (procs : gmap string VADProcessor) :
  (forall k p, procs !! k = Some p -> p = VADProcessor_new) ->
  reset_if_present peer procs = procs.
Proof.
  intros Hidle. unfold reset_if_present.
  destruct (procs !! peer) as [p|] eqn:E; [|reflexivity].
  apply insert_id. rewrite E. f_equal. apply (Hidle peer p E).
Qed.

Lemma serve_call_idle (srv : Server ModelState) (c : call) :
  (forall k p, client_processors srv !! k = Some p -> p = VADProcessor_new) ->
  forall k p,
    client_processors (serve_call model srv c) !! k = Some p ->
    p = VADProcessor_new.
Proof.
  intros Hidle k p. destruct c as [peer requests fin|peer]; simpl.
  - rewrite ProcessAudio_registry.
    destruct (decide (peer = k)) as [->|Hne].
    + rewrite lookup_insert_eq. congruence.
    + rewrite lookup_insert_ne by exact Hne. apply Hidle.
  - rewrite reset_if_present_idle by exact Hidle. apply Hidle.
Qed.

Lemma serve_calls_idle (calls : list call) :
  forall srv : Server ModelState,
    (forall k p, client_processors srv !! k = Some p -> p = VADProcessor_new) ->
    forall k p,
      client_processors (serve_calls model srv calls) !! k = Some p ->
      p = VADProcessor_new.
Proof.
  induction calls as [|c calls IH]; intros srv Hidle.
  - exact Hidle.
  - simpl. apply IH. apply serve_call_idle. exact Hidle.
Qed.

Lemma serve_calls_new_idle (m : ModelState) (calls : list call) :
  forall k p,
    client_processors (serve_calls model (VADServicer_new m) calls) !! k = Some p ->
    p = VADProcessor_new.
Proof.
  apply serve_calls_idle. intros k p H. simpl in H.
  rewrite lookup_empty in H. discriminate.
Qed.

Lemma serve_calls_dom (calls : list call) :
  forall srv : Server ModelState,
    dom (client_processors (serve_calls model srv calls)) =
      dom (client_processors srv) ∪ list_to_set (streaming_peers calls).
Proof.
  induction calls as [|c calls IH]; intros srv.
  - simpl. set_solver.
  - simpl. rewrite IH. destruct c as [peer requests fin|peer]; simpl.
    + rewrite ProcessAudio_registry, dom_insert_L. set_solver.
    + f_equal. unfold reset_if_present.
      destruct (client_processors srv !! peer) as [p|] eqn:E; [|reflexivity].
      rewrite dom_insert_L.
      assert (peer ∈ dom (client_processors srv))
        by (apply elem_of_dom; eauto).
      set_solver.
Qed.

(** X8: the sessions between calls. On a servicer that has served any
    list of complete calls since its creation, every processor of the
    dictionary is not speaking and has an empty accumulator, and the keys
    of the dictionary are exactly the peers that called [ProcessAudio]:
    [ResetVAD] never adds a key and nothing removes one. *)
Theorem served_sessions_idle (m : ModelState) (calls : list call) :
  let srv := serve_calls model (VADServicer_new m) calls in
  (forall peer processor,
     client_processors srv !! peer = Some processor ->
     speech_detected processor = false /\ accumulated_audio processor = []) /\
  dom (client_processors srv) = list_to_set (streaming_peers calls) /\
  (forall peer,
     is_Some (client_processors srv !! peer) <-> peer ∈ streaming_peers calls).
Proof.
  intros srv.
  assert (Hdom : dom (client_processors srv) = list_to_set (streaming_peers calls)).
  { unfold srv. rewrite serve_calls_dom. simpl. set_solver. }
  split; [|split; [exact Hdom|]].
  - intros peer processor H.
    rewrite (serve_calls_new_idle m calls peer processor H). split; reflexivity.
  - intros peer. rewrite <- elem_of_dom, Hdom. apply elem_of_list_to_set.
Qed.

(** X9: [ResetVAD] between calls changes nothing. On a servicer that has
    served any list of complete calls, a [ResetVAD] for any peer leaves the
    servicer exactly as it is (the sessions are reset when their streams
    end). *)
Theorem ResetVAD_between_calls (m : ModelState) (calls : list call) peer :
  let srv := serve_calls model (VADServicer_new m) calls in
  ResetVAD srv peer = (srv, mkResetResponse true) /\
  serve_calls model (VADServicer_new m) (calls ++ [CallResetVAD peer]) = srv.
Proof.
  intros srv.
  assert (H : ResetVAD srv peer = (srv, mkResetResponse true)).
  { unfold ResetVAD.
    rewrite reset_if_present_idle by apply (serve_calls_new_idle m calls).
    destruct srv; reflexivity. }
  split; [exact H|].
  unfold serve_calls. rewrite fold_left_app.
  change (fold_left (serve_call model) calls (VADServicer_new m)) with srv.
  cbn [fold_left serve_call]. rewrite H. reflexivity.
Qed.

(** X10: a stream does not depend on the sessions of earlier calls. On a
    servicer that has served any list of complete calls, the responses of
    [ProcessAudio] for any peer are those of the loop run from a new
    processor and the current state of the model. *)
Theorem stream_starts_fresh (m : ModelState) (calls : list call) peer
    requests fin :
  let srv := serve_calls model (VADServicer_new m) calls in
  (ProcessAudio model srv peer requests fin).1.2 =
    yielded (ProcessAudio_loop model (model_state srv) VADProcessor_new
               requests).2 /\
  alternating false (map event (ProcessAudio model srv peer requests fin).1.2).
Proof.
  intros srv.
  assert (Hsession :
    default VADProcessor_new (client_processors srv !! peer) = VADProcessor_new).
  { destruct (client_processors srv !! peer) as [p|] eqn:E; [|reflexivity].
    simpl. apply (serve_calls_new_idle m calls peer p E). }
  rewrite ProcessAudio_yielded, Hsession.
  split; [reflexivity|].
  apply (loop_events_alternate _ model requests (model_state srv) VADProcessor_new).
Qed.

End Registry.

(** ** The frame generator on any file *)

(** What one iteration yields for a read that is not empty, whatever its
    length (the padding is empty when the read is not shorter than
    [bytes_per_chunk]). *)
Lemma yielded_chunk_any (F : nat) (data : bytes) :
  data <> [] ->
  (if (length data =? F)%nat then [data]
   else if (0 <? length data)%nat then [data ++ repeat x00 (F - length data)]
   else []) = [data ++ repeat x00 (F - length data)].
Proof.
  intros Hne.
  destruct (Nat.eqb_spec (length data) F) as [E|E].
  - rewrite E, Nat.sub_diag. simpl. rewrite app_nil_r. reflexivity.
  - destruct (Nat.ltb_spec 0 (length data)) as [L|L]; [reflexivity|].
    destruct data; [contradiction|simpl in L; lia].
Qed.

(** The loop for any header: it ends, and the [i]-th chunk yielded is the
    [i]-th read, of at most [n] bytes and not empty, followed by zero bytes
    up to [F] bytes when it is shorter than [F]. *)
Lemma read_loop_shape (F : nat) (fuel : nat) :
  forall running k nch sw fr (rem data : bytes),
    let n := (VAD_CHUNK_SIZE * (nch * sw))%nat in
    length data <= n ->
    (length data < n -> rem = []) ->
    (length rem + 2 <= fuel \/ data = [] /\ 1 <= fuel) ->
    exists frames,
      read_loop fuel running k F (mkWave_read nch sw fr rem) data = Some frames /\
      (forall i f, frames !! i = Some f ->
         take n (drop (n * i) (data ++ rem)) <> [] /\
         f = take n (drop (n * i) (data ++ rem))
             ++ repeat x00 (F - length (take n (drop (n * i) (data ++ rem))))).
Proof.
  induction fuel as [|fuel IH]; intros running k nch sw fr rem data n Hle Hshort Hfuel.
  { exfalso. lia. }
  rewrite read_loop_S.
  destruct data as [|b data].
  { exists []. split; [reflexivity|].
    intros i f Hi. rewrite lookup_nil in Hi. discriminate. }
  destruct Hfuel as [Hfuel | [Habs _]]; [|discriminate].
  destruct (running k) eqn:Rk; simpl andb; cbv iota.
  2:{ exists []. split; [reflexivity|].
      intros i f Hi. rewrite lookup_nil in Hi. discriminate. }
  unfold readframes. cbn [getnchannels getsampwidth getframerate remaining fst snd].
  fold n.
  assert (Hn : 0 < n) by (simpl in Hle; lia).
  destruct (IH running (S k) nch sw fr (drop n rem) (take n rem))
    as (rest & Hrest & Hchunks).
  { rewrite length_take. fold n. lia. }
  { rewrite length_take. fold n. intros Hlt. apply drop_ge. lia. }
  { destruct rem as [|r rem].
    - right. rewrite take_nil. split; [reflexivity|lia].
    - left. rewrite length_drop. simpl in *. lia. }
  fold n in Hchunks. rewrite Hrest. cbv zeta.
  rewrite yielded_chunk_any by discriminate.
  set (data0 := b :: data) in *.
  assert (Hdrop : drop n (data0 ++ rem) = rem).
  { destruct (Nat.eq_dec (length data0) n) as [E|E].
    - rewrite <- E. apply drop_app_length.
    - rewrite (Hshort ltac:(lia)), app_nil_r. apply drop_ge. lia. }
  assert (Htake : take n (data0 ++ rem) = data0).
  { destruct (Nat.eq_dec (length data0) n) as [E|E].
    - rewrite <- E. apply take_app_length.
    - rewrite (Hshort ltac:(lia)), app_nil_r. apply take_ge. lia. }
  eexists. split; [reflexivity|].
  intros [|i] f Hi; simpl in Hi.
  - injection Hi as <-. rewrite Nat.mul_0_r.
    change (drop 0 (data0 ++ rem)) with (data0 ++ rem). rewrite Htake.
    split; [discriminate|reflexivity].
  - specialize (Hchunks i f Hi). rewrite take_drop in Hchunks.
    replace (n * S i)%nat with (n + n * i)%nat by lia.
    rewrite <- drop_drop, Hdrop. exact Hchunks.
Qed.

(** The generator on an opened file, for any header. *)
Lemma read_wav_file_shape (wf : Wave_read) (running : nat -> bool) :
  let n := (VAD_CHUNK_SIZE * (getnchannels wf * getsampwidth wf))%nat in
  let F := (VAD_CHUNK_SIZE * getsampwidth wf)%nat in
  exists frames,
    read_wav_file (inr wf) running = Some frames /\
    (forall i f, frames !! i = Some f ->
       take n (drop (n * i) (remaining wf)) <> [] /\
       f = take n (drop (n * i) (remaining wf))
           ++ repeat x00 (F - length (take n (drop (n * i) (remaining wf))))).
Proof.
  destruct wf as [nch sw fr rem].
  unfold read_wav_file, readframes.
  cbn [getnchannels getsampwidth getframerate remaining].
  set (n := (VAD_CHUNK_SIZE * (nch * sw))%nat).
  set (F := (VAD_CHUNK_SIZE * sw)%nat).
  destruct (read_loop_shape F (length rem + 2) running 0 nch sw fr
              (drop n rem) (take n rem))
    as (frames & Hrun & Hchunks).
  { rewrite length_take. lia. }
  { rewrite length_take. intros Hlt. apply drop_ge. fold n in Hlt. lia. }
  { left. rewrite length_drop. lia. }
  fold n in Hchunks. rewrite take_drop in Hchunks.
  exists frames. split; [exact Hrun|exact Hchunks].
Qed.

(** X11: the generator on any file. Whatever the header is, the generator
    ends; the [i]-th chunk yielded is the [i]-th read of the audio bytes
    (of [VAD_CHUNK_SIZE] frames at most, never empty) followed by zero
    bytes up to [bytes_per_chunk] when the read is shorter than that, so
    that its length is the larger of the two; there are no more chunks than
    audio bytes, and none when the file cannot be opened. *)
Theorem read_wav_file_any_format (wf : Wave_read) (running : nat -> bool) :
  let n := (VAD_CHUNK_SIZE * (getnchannels wf * getsampwidth wf))%nat in
  let bytes_per_chunk := (VAD_CHUNK_SIZE * getsampwidth wf)%nat in
  exists frames,
    read_wav_file (inr wf) running = Some frames /\
    (forall i f, frames !! i = Some f ->
       let read := take n (drop (n * i) (remaining wf)) in
       read <> [] /\
       f = read ++ repeat x00 (bytes_per_chunk - length read) /\
       length f = Nat.max (length read) bytes_per_chunk) /\
    length frames <= length (remaining wf) /\
    (forall e, read_wav_file (inl e) running = Some []).
Proof.
  intros n F.
  destruct (read_wav_file_shape wf running) as (frames & Hrun & Hchunks).
  fold n F in Hchunks.
  exists frames. split; [exact Hrun|]. split; [|split; [|reflexivity]].
  - intros i f Hi read. destruct (Hchunks i f Hi) as [Hne Hf]. fold read in Hne, Hf.
    split; [exact Hne|]. split; [exact Hf|].
    rewrite Hf, length_app, repeat_length. lia.
  - destruct (Nat.eq_dec (length frames) 0) as [E|E]; [lia|].
    destruct (lookup_lt_is_Some_2 frames (length frames - 1)) as [f Hf]; [lia|].
    destruct (Hchunks _ f Hf) as [Hne _].
    destruct (Nat.le_gt_cases (length (remaining wf)) (n * (length frames - 1)))
      as [Hshort|Hlong].
    + contradiction Hne. rewrite drop_ge by exact Hshort. apply take_nil.
    + destruct (Nat.eq_dec n 0) as [Hn|Hn]; [rewrite Hn in Hne; contradiction Hne; reflexivity|].
      nia.
Qed.

(** X12: for a mono file of any sample width, every chunk yielded is
    exactly [VAD_CHUNK_SIZE * sampwidth] bytes long (512 for 8-bit audio,
    1024 for 16-bit audio). *)
Theorem mono_chunks_exact (wf : Wave_read) (running : nat -> bool)
    (frames : list bytes) :
  getnchannels wf = 1%nat ->
  read_wav_file (inr wf) running = Some frames ->
  Forall (fun f : bytes => length f = (VAD_CHUNK_SIZE * getsampwidth wf)%nat)
    frames.
Proof.
  intros Hmono Hrun.
  destruct (read_wav_file_shape wf running) as (frames' & Hrun' & Hchunks).
  rewrite Hrun in Hrun'. injection Hrun' as <-.
  rewrite Hmono, Nat.mul_1_l in Hchunks.
  apply Forall_lookup. intros i f Hi.
  destruct (Hchunks i f Hi) as [_ ->].
  rewrite length_app, repeat_length, length_take. lia.
Qed.

(** X13: for a file of two channels or more, every chunk but the last is
    a full read passed on as it is, [nchannels] times longer than
    [bytes_per_chunk]. *)
Theorem multichannel_chunks_oversized (wf : Wave_read) (running : nat -> bool)
    (frames : list bytes) :
  2 <= getnchannels wf ->
  1 <= getsampwidth wf ->
  read_wav_file (inr wf) running = Some frames ->
  let n := (VAD_CHUNK_SIZE * (getnchannels wf * getsampwidth wf))%nat in
  let bytes_per_chunk := (VAD_CHUNK_SIZE * getsampwidth wf)%nat in
  forall i f, frames !! i = Some f -> S i < length frames ->
    f = take n (drop (n * i) (remaining wf)) /\
    length f = (getnchannels wf * bytes_per_chunk)%nat /\
    bytes_per_chunk < length f.
Proof.
  intros Hch Hsw Hrun n F i f Hi Hlt.
  destruct (read_wav_file_shape wf running) as (frames' & Hrun' & Hchunks).
  rewrite Hrun in Hrun'. injection Hrun' as <-. fold n F in Hchunks.
  assert (Hn : (n = getnchannels wf * F)%nat) by (unfold n, F; lia).
  assert (HF : 0 < F) by (unfold F, VAD_CHUNK_SIZE; lia).
  assert (Hfull : length (take n (drop (n * i) (remaining wf))) = n).
  { destruct (lookup_lt_is_Some_2 frames (S i) Hlt) as [f' Hf'].
    destruct (Hchunks (S i) f' Hf') as [Hne _].
    rewrite length_take, length_drop.
    destruct (Nat.le_gt_cases (length (remaining wf)) (n * S i)) as [Hshort|Hlong].
    - contradiction Hne. rewrite drop_ge by exact Hshort. apply take_nil.
    - rewrite Nat.mul_succ_r in Hlong. lia. }
  destruct (Hchunks i f Hi) as [_ Hf]. rewrite Hfull in Hf.
  replace (F - n)%nat with 0%nat in Hf by nia.
  simpl in Hf. rewrite app_nil_r in Hf.
  split; [exact Hf|]. rewrite Hf, Hfull. split; [exact Hn|nia].
Qed.

(** The uninterrupted loop does not look at the index of its tests. *)
Lemma read_loop_stopped (F : nat) (fuel : nat) :
  forall running k K wf data frames_all,
    read_loop fuel (fun _ => true) k F wf data = Some frames_all ->
    (forall j, k <= j < K -> running j = true) ->
    running K = false ->
    k <= K ->
    read_loop fuel running k F wf data = Some (take (K - k) frames_all).
Proof.
  induction fuel as [|fuel IH]; intros running k K wf data frames_all Hall Hrun Hstop Hk.
  { discriminate. }
  rewrite read_loop_S in Hall |- *.
  destruct data as [|b data].
  { simpl in Hall |- *. injection Hall as <-. rewrite take_nil. reflexivity. }
  simpl andb in Hall |- *. cbv zeta in Hall |- *.
  rewrite yielded_chunk_any in Hall |- * by discriminate.
  destruct (read_loop fuel (fun _ => true) (S k) F (readframes VAD_CHUNK_SIZE wf).2
              (readframes VAD_CHUNK_SIZE wf).1) as [rest|] eqn:Erest;
    [|discriminate].
  injection Hall as <-.
  destruct (Nat.eq_dec k K) as [->|Hne].
  - rewrite Hstop, Nat.sub_diag. reflexivity.
  - rewrite (Hrun k) by lia.
    rewrite (IH running (S k) K _ _ rest Erest) by (try assumption; intros; try apply Hrun; lia).
    replace (K - k)%nat with (S (K - S k)) by lia. reflexivity.
Qed.

(** X14: stopping cuts the stream and nothing else. If [self.running] is
    true at the first [K] tests of the loop and false at the next one, the
    chunks yielded are the first [K] chunks of the uninterrupted run (all
    of them if it has fewer). *)
Theorem stop_streaming_yields_prefix (opened : Exception + Wave_read)
    (running : nat -> bool) (K : nat) :
  (forall j, j < K -> running j = true) ->
  running K = false ->
  exists frames_all,
    read_wav_file opened (fun _ => true) = Some frames_all /\
    read_wav_file opened running = Some (take K frames_all).
Proof.
  intros Hrun Hstop. destruct opened as [e|wf].
  - exists []. split; [reflexivity|]. simpl. rewrite take_nil. reflexivity.
  - destruct (read_wav_file_shape wf (fun _ => true)) as (frames_all & Hall & _).
    exists frames_all. split; [exact Hall|].
    unfold read_wav_file in Hall |- *.
    destruct (readframes VAD_CHUNK_SIZE wf) as [data wf'].
    rewrite (read_loop_stopped _ _ running 0 K wf' data frames_all Hall);
      [rewrite Nat.sub_0_r; reflexivity| |exact Hstop|lia].
    intros j Hj. apply Hrun. lia.
Qed.

(** The chunks of an uninterrupted loop, joined, are the bytes read
    followed by the padding of the last chunk. *)
Lemma read_loop_join (F : nat) (fuel : nat) :
  forall k nch sw fr (rem data : bytes) frames,
    let n := (VAD_CHUNK_SIZE * (nch * sw))%nat in
    0 < n -> F <= n ->
    length data <= n ->
    (length data < n -> rem = []) ->
    read_loop fuel (fun _ => true) k F (mkWave_read nch sw fr rem) data
      = Some frames ->
    exists pad, (pad = 0 \/ pad < F)%nat /\
      join frames = (data ++ rem) ++ repeat x00 pad.
Proof.
  induction fuel as [|fuel IH];
    intros k nch sw fr rem data frames n Hn HF Hle Hshort Hrun.
  { discriminate. }
  rewrite read_loop_S in Hrun.
  destruct data as [|b data].
  { simpl in Hrun. injection Hrun as <-. exists 0%nat.
    rewrite Hshort by (simpl; lia). split; [left; reflexivity|reflexivity]. }
  simpl andb in Hrun. cbv zeta in Hrun.
  rewrite yielded_chunk_any in Hrun by discriminate.
  unfold readframes in Hrun.
  cbn [getnchannels getsampwidth getframerate remaining fst snd] in Hrun.
  fold n in Hrun.
  destruct (read_loop fuel (fun _ => true) (S k) F
              (mkWave_read nch sw fr (drop n rem)) (take n rem))
    as [rest|] eqn:Erest; [|discriminate].
  injection Hrun as <-.
  set (data0 := b :: data) in *.
  destruct (Nat.eq_dec (length data0) n) as [E|E].
  - destruct (IH (S k) nch sw fr (drop n rem) (take n rem) rest Hn HF)
      as (pad & Hpad & Hjoin).
    { rewrite length_take. fold n. lia. }
    { rewrite length_take. fold n. intros Hlt. apply drop_ge. lia. }
    { exact Erest. }
    exists pad. split; [exact Hpad|].
    rewrite take_drop in Hjoin.
    assert (Hpad0 : (F - length data0 = 0)%nat) by lia.
    match goal with
    | |- join (?c :: ?r) = _ =>
        change (join (c :: r))
          with ((data0 ++ repeat x00 (F - length data0)) ++ join r)
    end.
    rewrite Hpad0, Hjoin. cbn [repeat]. rewrite app_nil_r, app_assoc.
    reflexivity.
  - assert (Hrem : rem = []) by (apply Hshort; lia). subst rem.
    rewrite take_nil in Erest.
    destruct fuel as [|fuel']; [discriminate|].
    rewrite read_loop_S in Erest. simpl in Erest. injection Erest as <-.
    exists (F - length data0)%nat. split.
    + destruct (Nat.eq_dec F 0); [left; lia|right].
      assert (0 < length data0) by (unfold data0; simpl; lia). lia.
    + match goal with
      | |- join (?c :: ?r) = _ =>
          change (join (c :: r))
            with ((data0 ++ repeat x00 (F - length data0)) ++ join r)
      end.
      change (join []) with (@nil byte). rewrite !app_nil_r. reflexivity.
Qed.

(** X15: the stream reconstructs the file. For a file with at least one
    channel and one byte per sample, read without being stopped, the
    chunks yielded, joined in order, are the audio bytes of the file
    followed by fewer than [bytes_per_chunk] zero bytes: no byte is lost,
    repeated or moved. *)
Theorem chunks_join_to_file (wf : Wave_read) :
  1 <= getnchannels wf ->
  1 <= getsampwidth wf ->
  exists frames pad,
    read_wav_file (inr wf) (fun _ => true) = Some frames /\
    pad < VAD_CHUNK_SIZE * getsampwidth wf /\
    join frames = remaining wf ++ repeat x00 pad.
Proof.
  intros Hch Hsw.
  destruct (read_wav_file_shape wf (fun _ => true)) as (frames & Hrun & _).
  pose proof Hrun as Hrun'.
  destruct wf as [nch sw fr rem].
  unfold read_wav_file, readframes in Hrun'.
  cbn [getnchannels getsampwidth getframerate remaining] in *.
  set (n := (VAD_CHUNK_SIZE * (nch * sw))%nat) in *.
  set (F := (VAD_CHUNK_SIZE * sw)%nat) in *.
  assert (HF : 0 < F) by (unfold F, VAD_CHUNK_SIZE; lia).
  destruct (read_loop_join F (length rem + 2) 0 nch sw fr (drop n rem)
              (take n rem) frames)
    as (pad & Hpad & Hjoin).
  { fold n. unfold n, VAD_CHUNK_SIZE. nia. }
  { fold n. unfold n, F. nia. }
  { rewrite length_take. fold n. lia. }
  { rewrite length_take. fold n. intros Hlt. apply drop_ge. lia. }
  { exact Hrun'. }
  rewrite take_drop in Hjoin.
  exists frames, pad. split; [exact Hrun|]. split; [lia|exact Hjoin].
Qed.

(** ** The client and the server together *)

Lemma frombuffer_int16_app (samples1 : list Z) :
  forall chunk1 chunk2 : bytes,
    frombuffer_int16 chunk1 = inr samples1 ->
    frombuffer_int16 (chunk1 ++ chunk2) =
      match frombuffer_int16 chunk2 with
      | inl e => inl e
      | inr samples2 => inr (samples1 ++ samples2)
      end.
Proof.
  induction samples1 as [|s samples1 IH]; intros chunk1 chunk2 H.
  - destruct chunk1 as [|a [|b r]]; [|discriminate|].
    + simpl. destruct (frombuffer_int16 chunk2); reflexivity.
    + rewrite frombuffer_int16_cons2 in H.
      destruct (frombuffer_int16 r); discriminate.
  - destruct chunk1 as [|a [|b r]]; try discriminate.
    rewrite frombuffer_int16_cons2 in H.
    destruct (frombuffer_int16 r) as [e|l] eqn:E; [discriminate|].
    injection H as <- <-.
    change ((a :: b :: r) ++ chunk2) with (a :: b :: (r ++ chunk2)).
    rewrite frombuffer_int16_cons2, (IH r chunk2 E).
    destruct (frombuffer_int16 chunk2); reflexivity.
Qed.

Lemma frombuffer_int16_zeros (k : nat) :
  frombuffer_int16 (repeat x00 (2 * k)) = inr (repeat 0%Z k).
Proof.
  induction k as [|k IH]; [reflexivity|].
  replace (2 * S k)%nat with (S (S (2 * k))) by lia.
  change (repeat x00 (S (S (2 * k)))) with (x00 :: x00 :: repeat x00 (2 * k)).
  rewrite frombuffer_int16_cons2, IH. reflexivity.
Qed.

(** X16: padding on the client and padding on the server agree. A read of
    whole samples, at most [VAD_CHUNK_SIZE * 2] bytes long, that the
    client extends with zero bytes is decoded by the server to the very
    samples it would have made of the read itself, so that the model is
    given the same input either way. *)
Theorem client_padding_matches_server (data : bytes) (samples : list Z) :
  frombuffer_int16 data = inr samples ->
  length data <= VAD_CHUNK_SIZE * 2 ->
  let padded := data ++ repeat x00 (VAD_CHUNK_SIZE * 2 - length data) in
  frombuffer_int16 padded = inr (resize_chunk samples) /\
  resize_chunk (resize_chunk samples) = resize_chunk samples /\
  length padded = (VAD_CHUNK_SIZE * 2)%nat.
Proof.
  intros Hdec Hle padded.
  pose proof (frombuffer_int16_length samples data Hdec) as Hlen.
  assert (Hidem : resize_chunk (resize_chunk samples) = resize_chunk samples).
  { unfold resize_chunk at 1. rewrite resize_chunk_length, Nat.eqb_refl.
    reflexivity. }
  split; [|split; [exact Hidem|]].
  - unfold padded.
    replace (VAD_CHUNK_SIZE * 2 - length data)%nat
      with (2 * (VAD_CHUNK_SIZE - length samples))%nat by lia.
    rewrite (frombuffer_int16_app samples data _ Hdec), frombuffer_int16_zeros.
    f_equal. unfold resize_chunk.
    destruct (Nat.eqb_spec (length samples) VAD_CHUNK_SIZE) as [E|E]; simpl negb; cbv iota.
    + rewrite E, Nat.sub_diag. apply app_nil_r.
    + destruct (Nat.ltb_spec VAD_CHUNK_SIZE (length samples)); [lia|reflexivity].
  - unfold padded. rewrite length_app, repeat_length. lia.
Qed.

(** X17: the chunks of a mono 16-bit file need no repair on the server.
    Every chunk that [read_wav_file] yields for such a file is decoded by
    [np.frombuffer] without exception, to exactly [VAD_CHUNK_SIZE] samples
    that lines 71-78 leave as they are. *)
Theorem mono16_chunks_decode (wf : Wave_read) (running : nat -> bool)
    (frames : list bytes) :
  getnchannels wf = 1%nat ->
  getsampwidth wf = 2%nat ->
  read_wav_file (inr wf) running = Some frames ->
  Forall (fun f : bytes =>
            exists samples,
              frombuffer_int16 f = inr samples /\
              length samples = VAD_CHUNK_SIZE /\
              resize_chunk samples = samples) frames.
Proof.
  intros Hch Hsw Hrun.
  destruct (read_wav_file_shape wf running) as (frames' & Hrun' & Hchunks).
  rewrite Hrun in Hrun'. injection Hrun' as <-.
  rewrite Hch, Hsw in Hchunks.
  apply Forall_lookup. intros i f Hi.
  destruct (Hchunks i f Hi) as [_ Hf].
  assert (Hlen : length f = (2 * VAD_CHUNK_SIZE)%nat).
  { rewrite Hf, length_app, repeat_length, length_take. lia. }
  destruct (frombuffer_int16_even VAD_CHUNK_SIZE f Hlen) as (samples & Hs & Hn).
  exists samples. split; [exact Hs|]. split; [exact Hn|].
  unfold resize_chunk. rewrite Hn, Nat.eqb_refl. reflexivity.
Qed.

(** ** The client's queues *)

Lemma route_responses_queues (responses : list VADResponse) :
  forall q : Queues,
    vad_events_queue (route_responses q responses) =
      vad_events_queue q ++ map (fun r => (event r, message r)) responses /\
    stt_queue (route_responses q responses) =
      stt_queue q ++ map message (List.filter is_end responses).
Proof.
  induction responses as [|r responses IH]; intros q.
  - simpl. rewrite !app_nil_r. split; reflexivity.
  - change (route_responses q (r :: responses))
      with (route_responses (route_response q r) responses).
    destruct (IH (route_response q r)) as [Hv Hs]. rewrite Hv, Hs.
    unfold route_response. cbn [List.filter map]. unfold is_end.
    destruct (String.eqb (event r) "end"); cbn [vad_events_queue stt_queue map];
      rewrite <- !app_assoc; split; reflexivity.
Qed.

Lemma yielded_length (entries : list (string * option VADResponse)) :
  length (yielded entries) <= length entries.
Proof.
  induction entries as [|[status [response|]] entries IH].
  - simpl. lia.
  - rewrite yielded_cons_some. simpl. lia.
  - rewrite yielded_cons_none. simpl. lia.
Qed.

(** X18: what [stream_file] puts in the queues. The function ends; when
    the file does not exist nothing is sent and nothing is queued;
    otherwise [vad_events_queue] receives every response of the stream, in
    order, [stt_queue] receives the messages of the ["end"] responses, in
    order, and there are no more responses than chunks sent. *)
Theorem stream_file_queues {ModelState : Type}
    (model : ModelState -> list Q -> Z -> ModelState * (Exception + Q))
    (srv : Server ModelState) (peer : string)
    (opened : Exception + Wave_read) (running : nat -> bool) (q : Queues) :
  stream_file model srv peer false opened running q = Some (srv, q) /\
  exists chunks srv' q',
    read_wav_file opened running = Some chunks /\
    stream_file model srv peer true opened running q = Some (srv', q') /\
    let run := ProcessAudio model srv peer (map mkAudioChunk chunks) EndOfStream in
    srv' = run.1.1 /\
    vad_events_queue q' =
      vad_events_queue q ++ map (fun r => (event r, message r)) run.1.2 /\
    stt_queue q' = stt_queue q ++ map message (List.filter is_end run.1.2) /\
    length run.1.2 <= length chunks.
Proof.
  split; [reflexivity|].
  assert (Hchunks : exists chunks, read_wav_file opened running = Some chunks).
  { destruct opened as [e|wf]; [exists []; reflexivity|].
    destruct (read_wav_file_shape wf running) as (frames & Hrun & _).
    exists frames. exact Hrun. }
  destruct Hchunks as [chunks Hchunks].
  unfold stream_file. cbn [negb]. rewrite Hchunks.
  destruct (ProcessAudio model srv peer (map mkAudioChunk chunks) EndOfStream)
    as [[srv' responses] status] eqn:Erun.
  exists chunks, srv', (route_responses q responses).
  split; [reflexivity|]. split; [reflexivity|].
  assert (Hresp : responses =
                  (ProcessAudio model srv peer (map mkAudioChunk chunks)
                     EndOfStream).1.2) by (rewrite Erun; reflexivity).
  cbv zeta. rewrite Erun. cbn [fst snd].
  destruct (route_responses_queues responses q) as [Hv Hs].
  split; [reflexivity|]. split; [exact Hv|]. split; [exact Hs|].
  rewrite Hresp, ProcessAudio_yielded.
  etransitivity; [apply yielded_length|].
  rewrite ProcessAudio_loop_length, length_map. reflexivity.
Qed.

(** ** The recording of the server *)

(** X19: a recording is saved whole and can be replayed. When the buffer
    is not empty and the file can be opened, [save_recorded_audio] writes
    under [recordings/] a mono 16-bit file at [SAMPLE_RATE] holding the
    chunks joined in order, touches no other file and empties the buffer,
    so that a second call writes nothing; the client reads that file as
    chunks of 1024 bytes that, joined, are the recorded audio followed by
    fewer than 1024 zero bytes. When the file cannot be opened the buffer
    is kept. *)
Theorem recording_saved_and_replayed (audio_chunks : list bytes)
    (files : gmap string Wave_read) (timestamp : string) :
  audio_chunks <> [] ->
  let saved := save_recorded_audio audio_chunks files timestamp None in
  let path := "recordings/vad_recording_" +:+ timestamp +:+ ".wav" in
  let recording := mkWave_read 1 2 SAMPLE_RATE (join audio_chunks) in
  saved = (inr tt, [], <[path := recording]> files) /\
  saved.2 !! path = Some recording /\
  (forall other, other <> path -> saved.2 !! other = files !! other) /\
  (forall timestamp2 open_error,
     save_recorded_audio saved.1.2 saved.2 timestamp2 open_error =
       (inr tt, [], saved.2)) /\
  (forall e,
     save_recorded_audio audio_chunks files timestamp (Some e) =
       (inl e, audio_chunks, files)) /\
  exists frames pad,
    read_wav_file (inr recording) (fun _ => true) = Some frames /\
    Forall (fun f : bytes => length f = (VAD_CHUNK_SIZE * 2)%nat) frames /\
    pad < VAD_CHUNK_SIZE * 2 /\
    join frames = join audio_chunks ++ repeat x00 pad.
Proof.
  intros Hne saved path recording.
  assert (Hsaved : saved = (inr tt, [], <[path := recording]> files)).
  { unfold saved, save_recorded_audio.
    destruct audio_chunks as [|c chunks]; [contradiction|reflexivity]. }
  split; [exact Hsaved|]. rewrite Hsaved. cbn [fst snd].
  split; [apply lookup_insert_eq|].
  split; [intros other Hother; apply lookup_insert_ne; congruence|].
  split; [reflexivity|].
  split; [intros e; destruct audio_chunks; [contradiction|reflexivity]|].
  destruct (read_wav_file_shape recording (fun _ => true))
    as (frames & Hrun & Hchunks).
  pose proof Hrun as Hrun'.
  unfold read_wav_file, readframes in Hrun'.
  cbn [recording getnchannels getsampwidth getframerate remaining] in Hrun', Hchunks.
  change (VAD_CHUNK_SIZE * (1 * 2))%nat with (VAD_CHUNK_SIZE * 2)%nat in *.
  set (F := (VAD_CHUNK_SIZE * 2)%nat) in *.
  assert (HF : 0 < F) by (unfold F, VAD_CHUNK_SIZE; lia).
  destruct (read_loop_join F (length (join audio_chunks) + 2) 0 1 2 SAMPLE_RATE
              (drop F (join audio_chunks)) (take F (join audio_chunks)) frames)
    as (pad & Hpad & Hjoin).
  { exact HF. }
  { change (VAD_CHUNK_SIZE * (1 * 2))%nat with F. lia. }
  { change (VAD_CHUNK_SIZE * (1 * 2))%nat with F. rewrite length_take. lia. }
  { change (VAD_CHUNK_SIZE * (1 * 2))%nat with F. rewrite length_take.
    intros Hlt. apply drop_ge. lia. }
  { exact Hrun'. }
  rewrite take_drop in Hjoin.
  exists frames, pad. split; [exact Hrun|]. split; [|split; [lia|exact Hjoin]].
  apply Forall_lookup. intros i f Hi.
  destruct (Hchunks i f Hi) as [_ ->].
  rewrite length_app, repeat_length, length_take. lia.
Qed.

(** ** A stream without speech *)

(** X20: silence is accumulated too. With a model that never scores above
    the threshold, a session that is not speaking yields no response
    whatever it receives, stays not speaking, and keeps in its accumulator
    every chunk scored: nothing is flushed before a later ["end"], a reset
    or the end of the stream. *)
Theorem silent_stream_accumulates {ModelState : Type}
    (model : ModelState -> list Q -> Z -> ModelState * (Exception + Q))
    (m : ModelState) (self : VADProcessor) (requests : list AudioChunk) :
  (forall m0 x m1 p,
     model m0 x SAMPLE_RATE = (m1, inr p) -> (p <= THRESHOLD)%Q) ->
  speech_detected self = false ->
  let run := ProcessAudio_loop model m self requests in
  yielded run.2 = [] /\
  speech_detected run.1.2 = false /\
  accumulated_audio run.1.2 =
    accumulated_audio self ++ scored_chunks model m requests.
Proof.
  intros Hmodel. revert m self.
  induction requests as [|request requests IH]; intros m self Hsilent.
  - cbv zeta. simpl. rewrite app_nil_r. auto.
  - cbv zeta. rewrite ProcessAudio_loop_cons. cbv zeta. cbn [fst snd].
    assert (Hstep :
      exists m' self',
        ProcessAudio_step model m self request = (m', self', ("continue", None)) /\
        speech_detected self' = false /\
        accumulated_audio self' ++ scored_chunks model m' requests =
          accumulated_audio self ++ scored_chunks model m (request :: requests)).
    { destruct (process_chunk_try model m self (audio_data request))
        as [[m' self'] [e|status]] eqn:E.
      - exists m', self. split; [|split; [exact Hsilent|]].
        + eapply ProcessAudio_step_raises. exact E.
        + rewrite (scored_chunks_raises _ model _ _ _ _ _ _ _ E). reflexivity.
      - exists m', self'.
        rewrite (scored_chunks_returns _ model _ _ _ _ _ _ _ E).
        unfold ProcessAudio_step, process_chunk. rewrite E.
        unfold process_chunk_try in E.
        destruct (frombuffer_int16 (audio_data request)) as [e0|samples];
          [discriminate|].
        destruct (model m (normalize (resize_chunk samples)) SAMPLE_RATE)
          as [m1 [e1|p]] eqn:Emod; [discriminate|].
        apply Hmodel, above_threshold_false in Emod.
        rewrite Emod, Hsilent in E. simpl in E. injection E as <- <- <-.
        simpl. rewrite <- app_assoc. auto. }
    destruct Hstep as (m' & self' & Hstep & Hflag & Hacc).
    rewrite Hstep. cbn [fst snd]. rewrite yielded_cons_none.
    destruct (IH m' self' Hflag) as (Hy & Hf & Ha).
    split; [exact Hy|]. split; [exact Hf|]. rewrite Ha. exact Hacc.
Qed.

(** ** Instances of the further properties *)

Lemma frombuffer_int16_decodes_witness :
  length speech_chunk = (2 * length [10000%Z])%nat /\
  Nat.odd (length odd_chunk) = true.
Proof.
  destruct (frombuffer_int16_decodes speech_chunk) as (_ & Hlen & _).
  destruct (frombuffer_int16_decodes odd_chunk) as (_ & _ & Hodd).
  split.
  - apply Hlen. reflexivity.
  - apply (Hodd "buffer size must be a multiple of element size"). reflexivity.
Defined.

Lemma frombuffer_int16_injective_witness : speech_chunk = [x10; x27].
Proof.
  apply (frombuffer_int16_injective speech_chunk [x10; x27] [10000%Z]);
    reflexivity.
Defined.


Lemma odd_chunk_ignored_witness :
  process_chunk scripted_model [9 # 10]%Q (mkVADProcessor true [speech_chunk])
    odd_chunk = ([9 # 10]%Q, mkVADProcessor true [speech_chunk], "continue").
Proof.
  destruct (odd_chunk_ignored (list Q) scripted_model [9 # 10]%Q
              (mkVADProcessor true [speech_chunk]) odd_chunk eq_refl)
    as [Hstatus _].
  exact Hstatus.
Defined.

Lemma events_alternate_witness :
  let events :=
    map event
      (ProcessAudio scripted_model (mkServer [9 # 10; 1 # 10; 9 # 10]%Q ∅) peer0
         [mkAudioChunk speech_chunk; mkAudioChunk silence_chunk;
          mkAudioChunk speech_chunk] EndOfStream).1.2 in
  length (filter (fun e : string => e = "end") events)
  <= length (filter (fun e : string => e = "start") events)
  <= length (filter (fun e : string => e = "end") events) + 1.
Proof.
  destruct (events_alternate (list Q) scripted_model
              (mkServer [9 # 10; 1 # 10; 9 # 10]%Q ∅) peer0
              [mkAudioChunk speech_chunk; mkAudioChunk silence_chunk;
               mkAudioChunk speech_chunk] EndOfStream) as [_ Hcount].
  apply Hcount. reflexivity.
Defined.

Lemma flush_payload_is_scored_audio_witness :
  (get_accumulated_audio
     (mkVADProcessor false [speech_chunk; silence_chunk])).2 =
  join (scored_chunks scripted_model [9 # 10; 1 # 10]%Q
          ([mkAudioChunk speech_chunk; mkAudioChunk odd_chunk]
           ++ [mkAudioChunk silence_chunk])).
Proof.
  destruct (flush_payload_is_scored_audio (list Q) scripted_model
              [9 # 10; 1 # 10]%Q VADProcessor_new
              [mkAudioChunk speech_chunk; mkAudioChunk odd_chunk]
              (mkAudioChunk silence_chunk) []
              (mkVADProcessor false [speech_chunk; silence_chunk]))
    as [Hpayload _].
  - reflexivity.
  - repeat constructor; discriminate.
  - reflexivity.
  - exact Hpayload.
Defined.

Lemma served_sessions_idle_witness :
  let srv :=
    serve_calls scripted_model (VADServicer_new [9 # 10]%Q)
      [CallProcessAudio peer0 [mkAudioChunk speech_chunk] EndOfStream;
       CallResetVAD "ipv4:127.0.0.1:50433"] in
  is_Some (client_processors srv !! peer0) /\
  client_processors srv !! "ipv4:127.0.0.1:50433" = None.
Proof.
  intros srv.
  destruct (served_sessions_idle (list Q) scripted_model [9 # 10]%Q
              [CallProcessAudio peer0 [mkAudioChunk speech_chunk] EndOfStream;
               CallResetVAD "ipv4:127.0.0.1:50433"]) as (_ & _ & Hkeys).
  split.
  - apply Hkeys. simpl. left.
  - reflexivity.
Defined.

Lemma read_wav_file_any_format_witness :
  exists frames,
    read_wav_file (inr (mkWave_read 2 1 8000%Z [x01; x02; x03]))
      (fun _ => true) = Some frames /\
    length frames <= 3.
Proof.
  destruct (read_wav_file_any_format (mkWave_read 2 1 8000%Z [x01; x02; x03])
              (fun _ => true)) as (frames & Hrun & _ & Hlen & _).
  exists frames. split; [exact Hrun|exact Hlen].
Defined.

Lemma mono_chunks_exact_witness :
  Forall (fun f : bytes => length f = (VAD_CHUNK_SIZE * 1)%nat)
    [[x01; x02; x03] ++ repeat x00 509].
Proof.
  apply (mono_chunks_exact (mkWave_read 1 1 16000%Z [x01; x02; x03])
           (fun _ => true)); reflexivity.
Defined.

Lemma multichannel_chunks_oversized_witness :
  length (repeat x01 2048) = (2 * (VAD_CHUNK_SIZE * 2))%nat /\
  VAD_CHUNK_SIZE * 2 < length (repeat x01 2048).
Proof.
  destruct (multichannel_chunks_oversized
              (mkWave_read 2 2 16000%Z (repeat x01 2049)) (fun _ => true)
              [repeat x01 2048; x01 :: repeat x00 1023])
    with (i := 0%nat) (f := repeat x01 2048) as (_ & Hlen & Hlt).
  - simpl. lia.
  - simpl. lia.
  - vm_compute. reflexivity.
  - reflexivity.
  - simpl. lia.
  - split; [exact Hlen|exact Hlt].
Defined.

Lemma stop_streaming_yields_prefix_witness :
  exists frames_all,
    read_wav_file (inr (mkWave_read 1 2 16000%Z (repeat x01 3000)))
      (fun _ => true) = Some frames_all /\
    read_wav_file (inr (mkWave_read 1 2 16000%Z (repeat x01 3000)))
      (fun j => (j <? 1)%nat) = Some (take 1 frames_all).
Proof.
  apply (stop_streaming_yields_prefix
           (inr (mkWave_read 1 2 16000%Z (repeat x01 3000)))
           (fun j => (j <? 1)%nat) 1).
  - intros j Hj. destruct j; [reflexivity|lia].
  - reflexivity.
Defined.

Lemma chunks_join_to_file_witness :
  exists frames pad,
    read_wav_file (inr (mkWave_read 1 2 16000%Z [x01; x02; x03]))
      (fun _ => true) = Some frames /\
    pad < VAD_CHUNK_SIZE * 2 /\
    join frames = [x01; x02; x03] ++ repeat x00 pad.
Proof.
  apply (chunks_join_to_file (mkWave_read 1 2 16000%Z [x01; x02; x03]));
    simpl; lia.
Defined.

Lemma client_padding_matches_server_witness :
  frombuffer_int16
    (speech_chunk ++ repeat x00 (VAD_CHUNK_SIZE * 2 - length speech_chunk))
  = inr (resize_chunk [10000%Z]).
Proof.
  destruct (client_padding_matches_server speech_chunk [10000%Z] eq_refl)
    as [Hdec _].
  - unfold VAD_CHUNK_SIZE. simpl. lia.
  - exact Hdec.
Defined.

Lemma mono16_chunks_decode_witness :
  Forall (fun f : bytes =>
            exists samples,
              frombuffer_int16 f = inr samples /\
              length samples = VAD_CHUNK_SIZE /\
              resize_chunk samples = samples)
    [[x01; x02; x03] ++ repeat x00 1021].
Proof.
  apply (mono16_chunks_decode (mkWave_read 1 2 16000%Z [x01; x02; x03])
           (fun _ => true)); reflexivity.
Defined.

Lemma recording_saved_and_replayed_witness :
  (save_recorded_audio [speech_chunk; silence_chunk] ∅ "20240101-120000" None).2
    !! "recordings/vad_recording_20240101-120000.wav"
  = Some (mkWave_read 1 2 SAMPLE_RATE (join [speech_chunk; silence_chunk])).
Proof.
  destruct (recording_saved_and_replayed [speech_chunk; silence_chunk] ∅
              "20240101-120000") as (_ & Hfile & _).
  - discriminate.
  - exact Hfile.
Defined.

Lemma silent_stream_accumulates_witness :
  yielded
    (ProcessAudio_loop (fun (m : unit) (_ : list Q) (_ : Z) => (m, inr (0 # 1)%Q))
       tt VADProcessor_new
       [mkAudioChunk speech_chunk; mkAudioChunk odd_chunk]).2 = [].
Proof.
  destruct (silent_stream_accumulates
              (fun (m : unit) (_ : list Q) (_ : Z) => (m, inr (0 # 1)%Q))
              tt VADProcessor_new
              [mkAudioChunk speech_chunk; mkAudioChunk odd_chunk])
    as (Hnone & _).
  - intros m0 x m1 p H. injection H as _ <-. discriminate.
  - reflexivity.
  - exact Hnone.
Defined.
